(** * Vue-Smart-Fetch: request lifecycle and deduplication engine

    A shallow embedding of [src/index.js] (the [createFetch] factory and the
    process-wide [pendingRequests] table) together with the properties of
    its request-key encoder, in-flight registry, instance state machine and
    polling controller.

    Conventions of the embedding:
    - JavaScript data is the type [value]; an object is the list of its own
      enumerable properties in the order [JSON.stringify] and [for..in]
      visit them, each key occurring once;
    - numbers are integers ([Z]); strings are sequences of code units below
      256 ([ascii]);
    - the module-level [Map] [pendingRequests] is a [gmap string nat] from
      request key to the promise stored under it;
    - promises are numbered; an [await] suspends a run in [waiters] and the
      settlement of the awaited promise resumes it.  The event loop is a
      sequence of turns ([label]): calls on a handle, the settlement of a
      transport call (with any outcome, at any time), the firing of a
      pending timer;
    - the user callbacks [onSuccess], [onError], [onFinish] are observers:
      each call is recorded in [log], and they do not call back into the
      instance. *)

From Stdlib Require Import ZArith Ascii String DecimalString.
From stdpp Require Import gmap strings list fin_maps.

Open Scope Z_scope.

(** ** JavaScript values *)

#[local] Set Warnings "-register-all".

Inductive value : Type :=
| VUndefined
| VNull
| VBool (b : bool)
| VNum (n : Z)
| VStr (s : string)
| VArr (elems : list value)
| VObj (fields : list (string * value)).

(** A request config is a plain object. *)
Definition config : Type := list (string * value).

(** [o[k]] : the value of the own property [k], [undefined] when absent. *)
Fixpoint get_prop (k : string) (o : list (string * value)) : value :=
  match o with
  | [] => VUndefined
  | (k', v) :: rest => if String.eqb k k' then v else get_prop k rest
  end.

(** [k in o] *)
Fixpoint has_prop (k : string) (o : list (string * value)) : bool :=
  match o with
  | [] => false
  | (k', _) :: rest => String.eqb k k' || has_prop k rest
  end.

(** ** [String.prototype.trim] *)

Definition is_white_space (c : ascii) : bool :=
  let n := N_of_ascii c in
  ((9 <=? n) && (n <=? 13) || (n =? 32) || (n =? 160))%N.

Fixpoint trim_start (s : string) : string :=
  match s with
  | EmptyString => EmptyString
  | String c rest => if is_white_space c then trim_start rest else s
  end.

(** Removes trailing white space: a suffix made of white space only is
    dropped. *)
Fixpoint trim_end (s : string) : string :=
  match s with
  | EmptyString => EmptyString
  | String c rest =>
      match trim_end rest with
      | EmptyString => if is_white_space c then EmptyString else String c EmptyString
      | t => String c t
      end
  end.

Definition trim (s : string) : string := trim_end (trim_start s).

(** ** [hasUrl] (index.js, lines 12-14) *)

Definition hasUrl (config : config) : bool :=
  has_prop "url" config &&
  match get_prop "url" config with
  | VStr url => (0 <? String.length (trim url))%nat
  | _ => false
  end.

(** ** [JSON.stringify] *)

Definition dquote : string := String "034"%char EmptyString.

Definition hex_digit (n : N) : ascii :=
  ascii_of_N (if (n <? 10)%N then 48 + n else 87 + n)%N.

(** One code unit of [QuoteJSONString]. *)
Definition quote_unit (c : ascii) : string :=
  let n := N_of_ascii c in
  if (n =? 8)%N then "\b"
  else if (n =? 9)%N then "\t"
  else if (n =? 10)%N then "\n"
  else if (n =? 12)%N then "\f"
  else if (n =? 13)%N then "\r"
  else if (n =? 34)%N then "\" +:+ dquote
  else if (n =? 92)%N then "\\"
  else if (n <? 32)%N then
    "\u00" +:+ String (hex_digit (n / 16)) (String (hex_digit (n mod 16)) EmptyString)
  else String c EmptyString.

Fixpoint quote_units (s : string) : string :=
  match s with
  | EmptyString => EmptyString
  | String c rest => quote_unit c +:+ quote_units rest
  end.

Definition QuoteJSONString (s : string) : string :=
  dquote +:+ quote_units s +:+ dquote.

Definition number_to_string (n : Z) : string :=
  NilZero.string_of_int (Z.to_int n).

(** [SerializeJSONProperty]: [None] is JavaScript's [undefined], the result
    for a value that has no JSON text.  A property whose value has no JSON
    text is left out of an object and written [null] in an array. *)
Fixpoint SerializeJSONProperty (v : value) : option string :=
  match v with
  | VUndefined => None
  | VNull => Some "null"
  | VBool true => Some "true"
  | VBool false => Some "false"
  | VNum n => Some (number_to_string n)
  | VStr s => Some (QuoteJSONString s)
  | VArr elems =>
      let items :=
        (fix items (l : list value) : list string :=
           match l with
           | [] => []
           | x :: rest =>
               match SerializeJSONProperty x with
               | Some t => t :: items rest
               | None => "null" :: items rest
               end
           end) elems in
      Some ("[" +:+ String.concat "," items +:+ "]")
  | VObj fields =>
      let members :=
        (fix members (l : list (string * value)) : list string :=
           match l with
           | [] => []
           | (k, x) :: rest =>
               match SerializeJSONProperty x with
               | Some t => (QuoteJSONString k +:+ ":" +:+ t) :: members rest
               | None => members rest
               end
           end) fields in
      Some ("{" +:+ String.concat "," members +:+ "}")
  end.

(** [JSON.stringify] applied to an object always yields a string. *)
Definition JSON_stringify_object (fields : list (string * value)) : string :=
  match SerializeJSONProperty (VObj fields) with
  | Some t => t
  | None => EmptyString
  end.

(** ** [getRequestKey] (index.js, lines 16-20) *)

(** The destructuring default [method = 'get'] applies when the property
    reads [undefined]. *)
Definition method_of (config : config) : value :=
  match get_prop "method" config with
  | VUndefined => VStr "get"
  | m => m
  end.

Definition getRequestKey (config : config) : string :=
  let method := method_of config in
  let url := get_prop "url" config in
  let params := get_prop "params" config in
  let data := get_prop "data" config in
  let safeConfig :=
    [("method", method); ("url", url); ("params", params); ("data", data)] in
  JSON_stringify_object safeConfig.

(** ** Structural identity of values, field order set aside

    Two objects are identical up to field order when they have as many
    fields and every field of the first is a field of the second with an
    identical value; arrays are compared position by position. *)
Fixpoint same_value (a b : value) : bool :=
  match a, b with
  | VUndefined, VUndefined => true
  | VNull, VNull => true
  | VBool x, VBool y => Bool.eqb x y
  | VNum x, VNum y => (x =? y)
  | VStr x, VStr y => String.eqb x y
  | VArr xs, VArr ys =>
      (fix same_elems (l : list value) (r : list value) : bool :=
         match l, r with
         | [], [] => true
         | x :: l', y :: r' => same_value x y && same_elems l' r'
         | _, _ => false
         end) xs ys
  | VObj fa, VObj fb =>
      (length fa =? length fb)%nat &&
      (fix same_fields (l : list (string * value)) : bool :=
         match l with
         | [] => true
         | (k, x) :: l' =>
             has_prop k fb && same_value x (get_prop k fb) && same_fields l'
         end) fa
  | _, _ => false
  end.

(** Two configs describe the same request when method, url, params and
    body ([data], the name axios gives the body) are identical up to field
    order. *)
Definition same_request (a b : config) : bool :=
  same_value (method_of a) (method_of b) &&
  same_value (get_prop "url" a) (get_prop "url" b) &&
  same_value (get_prop "params" a) (get_prop "params" b) &&
  same_value (get_prop "data" a) (get_prop "data" b).

(** ** Errors, responses and settlements *)

(** The values this program throws and catches. *)
Inductive failure : Type :=
| ConfigError                       (* new Error('Config with url is required') *)
| CanceledError                     (* the rejection axios.isCancel recognises *)
| TransportError (info : value).    (* any other rejection of the transport *)

(** [axios.isCancel(error)] *)
Definition isCancel (e : failure) : bool :=
  match e with
  | CanceledError => true
  | _ => false
  end.

Module Response.
Record t : Type := mk { data : value; status : value; headers : value }.
End Response.

(** How a promise settles. *)
Inductive outcome : Type :=
| Fulfilled (response : Response.t)
| RejectedWith (error : failure).

(** ** Instance state *)

Inductive FetchStatus : Type := Inactive | Loading | Done.

Definition FetchStatus_eqb (a b : FetchStatus) : bool :=
  match a, b with
  | Inactive, Inactive | Loading, Loading | Done, Done => true
  | _, _ => false
  end.

(** The [reactive({...})] object of an instance (lines 34-41); [error] is
    [None] for [null] and [overrideSafeResult] is [VUndefined] when no
    override is set. *)
Module State.
Record t : Type := mk {
  result : value;
  statusCode : value;
  headers : value;
  error : option failure;
  status : FetchStatus;
  overrideSafeResult : value
}.
End State.

(** The computed views handed to callers and callbacks (lines 43-51). *)
Module FetchResult.
Record t : Type := mk {
  result : value;
  statusCode : value;
  headers : value;
  error : option failure;
  isLoading : bool;
  isFinished : bool;
  safeResult : value
}.
End FetchResult.

(** The [poll] option: a number of milliseconds or a function of the
    instance's views; a negative timing schedules nothing. *)
Inductive poll_setting : Type :=
| PollMs (ms : Z)
| PollFn (f : FetchResult.t -> Z).

(** One instance: its reactive state, the [let] variables of its closure
    (lines 53-57) and the options fixed at creation. *)
Record instance : Type := mkInstance {
  state : State.t;
  controller : option nat;      (* the AbortController, named by the call it guards *)
  shared : option nat;          (* the promise awaited by the latest run *)
  currentKey : option string;
  currentConfig : config;
  pollTimer : option nat;
  poll : poll_setting;
  onSuccess : bool;             (* typeof onSuccess === 'function' *)
  onError : bool;
  onFinish : bool;
  safeResultGetter : value -> value;
  lazy : bool
}.

Definition with_state (f : State.t -> State.t) (x : instance) : instance :=
  mkInstance (f (state x)) (controller x) (shared x) (currentKey x)
    (currentConfig x) (pollTimer x) (poll x) (onSuccess x) (onError x)
    (onFinish x) (safeResultGetter x) (lazy x).

Definition set_controller (c : option nat) (x : instance) : instance :=
  mkInstance (state x) c (shared x) (currentKey x)
    (currentConfig x) (pollTimer x) (poll x) (onSuccess x) (onError x)
    (onFinish x) (safeResultGetter x) (lazy x).

Definition set_shared (p : option nat) (x : instance) : instance :=
  mkInstance (state x) (controller x) p (currentKey x)
    (currentConfig x) (pollTimer x) (poll x) (onSuccess x) (onError x)
    (onFinish x) (safeResultGetter x) (lazy x).

Definition set_currentKey (k : option string) (x : instance) : instance :=
  mkInstance (state x) (controller x) (shared x) k
    (currentConfig x) (pollTimer x) (poll x) (onSuccess x) (onError x)
    (onFinish x) (safeResultGetter x) (lazy x).

Definition set_currentConfig (c : config) (x : instance) : instance :=
  mkInstance (state x) (controller x) (shared x) (currentKey x)
    c (pollTimer x) (poll x) (onSuccess x) (onError x)
    (onFinish x) (safeResultGetter x) (lazy x).

Definition set_pollTimer (t : option nat) (x : instance) : instance :=
  mkInstance (state x) (controller x) (shared x) (currentKey x)
    (currentConfig x) t (poll x) (onSuccess x) (onError x)
    (onFinish x) (safeResultGetter x) (lazy x).

Definition set_poll (p : poll_setting) (x : instance) : instance :=
  mkInstance (state x) (controller x) (shared x) (currentKey x)
    (currentConfig x) (pollTimer x) p (onSuccess x) (onError x)
    (onFinish x) (safeResultGetter x) (lazy x).

Definition set_status (s : FetchStatus) (st : State.t) : State.t :=
  State.mk (State.result st) (State.statusCode st) (State.headers st)
    (State.error st) s (State.overrideSafeResult st).

Definition set_error (e : option failure) (st : State.t) : State.t :=
  State.mk (State.result st) (State.statusCode st) (State.headers st)
    e (State.status st) (State.overrideSafeResult st).

Definition set_result (v : value) (st : State.t) : State.t :=
  State.mk v (State.statusCode st) (State.headers st)
    (State.error st) (State.status st) (State.overrideSafeResult st).

Definition set_statusCode (v : value) (st : State.t) : State.t :=
  State.mk (State.result st) v (State.headers st)
    (State.error st) (State.status st) (State.overrideSafeResult st).

Definition set_headers (v : value) (st : State.t) : State.t :=
  State.mk (State.result st) (State.statusCode st) v
    (State.error st) (State.status st) (State.overrideSafeResult st).

Definition set_override (v : value) (st : State.t) : State.t :=
  State.mk (State.result st) (State.statusCode st) (State.headers st)
    (State.error st) (State.status st) v.

(** [safeResult] (line 50): the override unless it is [undefined]. *)
Definition safeResult (x : instance) : value :=
  match State.overrideSafeResult (state x) with
  | VUndefined => safeResultGetter x (State.result (state x))
  | v => v
  end.

Definition isLoading (x : instance) : bool :=
  FetchStatus_eqb (State.status (state x)) Loading.

Definition isFinished (x : instance) : bool :=
  FetchStatus_eqb (State.status (state x)) Done.

Definition fetchResult (x : instance) : FetchResult.t :=
  FetchResult.mk (State.result (state x)) (State.statusCode (state x))
    (State.headers (state x)) (State.error (state x))
    (isLoading x) (isFinished x) (safeResult x).

(** [typeof poll === 'function' ? poll(fetchResult) : poll] *)
Definition pollTiming (x : instance) : Z :=
  match poll x with
  | PollMs ms => ms
  | PollFn f => f (fetchResult x)
  end.

(** ** The world: registry, transport calls, instances, suspended runs *)

(** A call of [axiosInstance]; [shared] promises are named by the index of
    the call they wrap.  [call_owner] is the instance whose closure the
    [.finally] callback of line 75 belongs to. *)
Record call : Type := mkCall {
  call_config : config;
  call_owner : nat;
  call_aborted : bool;
  call_outcome : option outcome
}.

Record timer : Type := mkTimer {
  timer_id : nat;
  timer_inst : nat;
  timer_delay : Z
}.

(** What the outside observes: callback invocations and the settlement of
    the promises returned by [runFetch]. *)
Inductive event : Type :=
| EvOnSuccess (i : nat)
| EvOnError (i : nat)
| EvOnFinish (i : nat)
| EvResolved (i : nat) (response : Response.t)
| EvRejected (i : nat) (error : failure).

Record world : Type := mkWorld {
  pendingRequests : gmap string nat;
  calls : list call;
  instances : list instance;
  waiters : list (nat * nat);      (* (instance, awaited promise), oldest first *)
  timers : list timer;             (* pending setTimeout callbacks *)
  next_timer : nat;
  log : list event
}.

Definition empty_world : world := mkWorld ∅ [] [] [] [] 1%nat [].

Definition set_pending (m : gmap string nat) (w : world) : world :=
  mkWorld m (calls w) (instances w) (waiters w) (timers w) (next_timer w) (log w).

Definition set_calls (cs : list call) (w : world) : world :=
  mkWorld (pendingRequests w) cs (instances w) (waiters w) (timers w)
    (next_timer w) (log w).

Definition set_instances (xs : list instance) (w : world) : world :=
  mkWorld (pendingRequests w) (calls w) xs (waiters w) (timers w)
    (next_timer w) (log w).

Definition set_waiters (rs : list (nat * nat)) (w : world) : world :=
  mkWorld (pendingRequests w) (calls w) (instances w) rs (timers w)
    (next_timer w) (log w).

Definition set_timers (ts : list timer) (n : nat) (w : world) : world :=
  mkWorld (pendingRequests w) (calls w) (instances w) (waiters w) ts n (log w).

Definition emit (evs : list event) (w : world) : world :=
  mkWorld (pendingRequests w) (calls w) (instances w) (waiters w) (timers w)
    (next_timer w) (log w ++ evs).

(** Assignment to a variable or state field of instance [i]. *)
Definition upd (i : nat) (f : instance -> instance) (w : world) : world :=
  set_instances (alter f i (instances w)) w.

Definition outcome_of (p : nat) (w : world) : option outcome :=
  match calls w !! p with
  | Some c => call_outcome c
  | None => None
  end.

Definition setTimeout (i : nat) (delay : Z) (w : world) : world :=
  set_timers (timers w ++ [mkTimer (next_timer w) i delay]) (S (next_timer w)) w.

Definition clearTimeout (t : nat) (w : world) : world :=
  set_timers (filter (fun tm => timer_id tm ≠ t) (timers w)) (next_timer w) w.

(** [controller.abort()] *)
Definition abort (c : nat) (w : world) : world :=
  set_calls
    (alter (fun cl => mkCall (call_config cl) (call_owner cl) true (call_outcome cl))
       c (calls w)) w.

(** ** [runFetch] (lines 59-123)

    [runFetch] is the part of the function that runs until [await shared]
    (lines 60-85); without a url the returned promise is rejected at once.
    [runFetch_settled] is the rest of the body, run when the awaited promise
    has settled. *)
Definition runFetch (i : nat) (config : config) (w : world) : world :=
  if negb (hasUrl config) then emit [EvRejected i ConfigError] w
  else
    let key := getRequestKey config in
    let w := upd i (set_currentKey (Some key)) w in
    let '(w, p) :=
      match pendingRequests w !! key with
      | Some p => (upd i (set_shared (Some p)) w, p)
      | None =>
          let p := length (calls w) in
          let w := upd i (set_controller (Some p)) w in
          let w := set_calls (calls w ++ [mkCall config i false None]) w in
          let w := upd i (set_shared (Some p)) w in
          (set_pending (<[key := p]> (pendingRequests w)) w, p)
      end in
    let w := upd i (with_state (set_status Loading)) w in
    set_waiters (waiters w ++ [(i, p)]) w.

(** The assignments of the [try] and [catch] blocks (lines 87-92, 101-104). *)
Definition on_outcome (o : outcome) (x : instance) : instance :=
  match o with
  | Fulfilled response =>
      with_state (fun st =>
        set_status Done
          (set_error None
            (set_headers (Response.headers response)
              (set_statusCode (Response.status response)
                (set_result (Response.data response)
                  (set_override VUndefined st)))))) x
  | RejectedWith error =>
      if negb (isCancel error) then
        with_state (fun st => set_status Done (set_error (Some error) st)) x
      else x
  end.

(** The callback of the [try] and [catch] blocks (lines 94-96, 105-107). *)
Definition outcome_callback (i : nat) (o : outcome) (x : instance) : list event :=
  match o with
  | Fulfilled _ => if onSuccess x then [EvOnSuccess i] else []
  | RejectedWith error =>
      if negb (isCancel error) then
        if onError x then [EvOnError i] else []
      else []
  end.

Definition runFetch_settled (i : nat) (o : outcome) (w : world) : world :=
  match instances w !! i with
  | None => w
  | Some x =>
      let x1 := on_outcome o x in
      let w := emit (outcome_callback i o x) (upd i (fun _ => x1) w) in
      (* finally *)
      let timing := pollTiming x1 in
      let w :=
        if 0 <=? timing then
          upd i (set_pollTimer (Some (next_timer w))) (setTimeout i timing w)
        else w in
      let w := if onFinish x then emit [EvOnFinish i] w else w in
      (* return response / throw error *)
      match o with
      | Fulfilled response => emit [EvResolved i response] w
      | RejectedWith error => emit [EvRejected i error] w
      end
  end.

(** ** Settlement of promises *)

Definition is_settled (w : world) (r : nat * nat) : bool :=
  match outcome_of r.2 w with
  | Some _ => true
  | None => false
  end.

Fixpoint resume_all (rs : list (nat * nat)) (w : world) : world :=
  match rs with
  | [] => w
  | (i, p) :: rest =>
      resume_all rest
        match outcome_of p w with
        | Some o => runFetch_settled i o w
        | None => w
        end
  end.

(** Every suspended run whose awaited promise has settled is resumed, in
    the order in which the runs reached their [await]. *)
Definition drain (w : world) : world :=
  let rs := waiters w in
  resume_all rs (set_waiters (List.filter (fun r => negb (is_settled w r)) rs) w).

(** The [.finally] callback of lines 75-77: it reads [currentKey] from the
    closure of the instance that created the call, at the time it runs. *)
Definition finally_callback (owner : nat) (w : world) : world :=
  match instances w !! owner with
  | Some x =>
      match currentKey x with
      | Some k => set_pending (delete k (pendingRequests w)) w
      | None => w
      end
  | None => w
  end.

(** The transport settles call [p] with [o]: the [.finally] callback runs,
    then the runs awaiting the promise (and any run that attached to a
    promise that had settled already).  A call settles once. *)
Definition settle (p : nat) (o : outcome) (w : world) : world :=
  match calls w !! p with
  | None => w
  | Some c =>
      match call_outcome c with
      | Some _ => w
      | None =>
          let settled :=
            mkCall (call_config c) (call_owner c) (call_aborted c) (Some o) in
          let w := set_calls (<[p := settled]> (calls w)) w in
          drain (finally_callback (call_owner c) w)
      end
  end.

(** A pending timer fires and is pending no more:
    [() => runFetch(currentConfig)] (line 116).  [pollTimer] keeps the
    handle. *)
Definition fire (t : nat) (w : world) : world :=
  match List.find (fun tm => Nat.eqb (timer_id tm) t) (timers w) with
  | None => w
  | Some tm =>
      let w := clearTimeout t w in
      match instances w !! timer_inst tm with
      | Some x => runFetch (timer_inst tm) (currentConfig x) w
      | None => w
      end
  end.

(** ** The handle returned to the caller (lines 132-186) *)

Module Handle.

Definition overrideSafeResult (i : nat) (v : value) (w : world) : world :=
  upd i (with_state (set_override v)) w.

Definition clearSafeOverride (i : nat) (w : world) : world :=
  upd i (with_state (set_override VUndefined)) w.

Definition poll (i : nat) (timing : poll_setting) (w : world) : world :=
  let w := upd i (set_poll timing) w in
  match instances w !! i with
  | None => w
  | Some x =>
      if negb (lazy x) && (0 <=? pollTiming x)
         && negb (bool_decide (is_Some (pollTimer x)))
         && FetchStatus_eqb (State.status (state x)) Inactive
         && hasUrl (currentConfig x)
      then runFetch i (currentConfig x) w
      else w
  end.

Definition stopPoll (i : nat) (w : world) : world :=
  match instances w !! i with
  | None => w
  | Some x =>
      match pollTimer x with
      | Some t => upd i (set_pollTimer None) (clearTimeout t w)
      | None => w
      end
  end.

Definition stop (i : nat) (w : world) : world :=
  match instances w !! i with
  | None => w
  | Some x =>
      match controller x with
      | Some c =>
          if FetchStatus_eqb (State.status (state x)) Loading then
            upd i (with_state (set_status Done)) (abort c w)
          else w
      | None => w
      end
  end.

Definition resume (i : nat) (w : world) : world :=
  match instances w !! i with
  | None => w
  | Some x =>
      if FetchStatus_eqb (State.status (state x)) Inactive
      then runFetch i (currentConfig x) w
      else w
  end.

Definition start (i : nat) (w : world) : world :=
  match instances w !! i with
  | None => w
  | Some x =>
      if negb (FetchStatus_eqb (State.status (state x)) Loading)
      then runFetch i (currentConfig x) w
      else w
  end.

Definition clear (i : nat) (w : world) : world :=
  upd i (with_state (fun st => set_result VNull (set_override VUndefined st))) w.

(** [fulfill(config)]: a string stands for [{ url: config }]. *)
Definition fulfill (i : nat) (c : string + config) (w : world) : world :=
  let c' := match c with inl url => [("url", VStr url)] | inr cfg => cfg end in
  upd i (set_currentConfig c') w.

End Handle.

(** ** Creation of an instance (lines 23-57, 125-130) *)

Record options : Type := mkOptions {
  opt_onSuccess : bool;
  opt_onError : bool;
  opt_onFinish : bool;
  opt_safeResultGetter : value -> value;
  opt_lazy : bool;
  opt_poll : poll_setting;
  opt_axiosConfig : config
}.

(** The defaults of the destructuring of lines 24-32. *)
Definition default_options (axiosConfig : config) : options :=
  mkOptions false false false (fun result => result) false (PollMs (-1)) axiosConfig.

Definition createFetch (initialConfig : string + options) (w : world) : world :=
  let o :=
    match initialConfig with
    | inl url => default_options [("url", VStr url)]
    | inr o => o
    end in
  let i := length (instances w) in
  let x :=
    mkInstance (State.mk VNull VNull VNull None Inactive VUndefined)
      None None None (opt_axiosConfig o) None (opt_poll o)
      (opt_onSuccess o) (opt_onError o) (opt_onFinish o)
      (opt_safeResultGetter o) (opt_lazy o) in
  let w := set_instances (instances w ++ [x]) w in
  if negb (lazy x) && hasUrl (currentConfig x)
  then runFetch i (currentConfig x) w
  else upd i (with_state (set_status Inactive)) w.

(** ** Event-loop turns *)

Inductive label : Type :=
| Create (initialConfig : string + options)
| Start (i : nat)
| Resume (i : nat)
| Stop (i : nat)
| Clear (i : nat)
| OverrideSafeResult (i : nat) (v : value)
| ClearSafeOverride (i : nat)
| Poll (i : nat) (timing : poll_setting)
| StopPoll (i : nat)
| Fulfill (i : nat) (c : string + config)
| Settle (p : nat) (o : outcome)
| Fire (t : nat)
| Tick.

Definition step (l : label) (w : world) : world :=
  match l with
  | Create init => createFetch init w
  | Start i => Handle.start i w
  | Resume i => Handle.resume i w
  | Stop i => Handle.stop i w
  | Clear i => Handle.clear i w
  | OverrideSafeResult i v => Handle.overrideSafeResult i v w
  | ClearSafeOverride i => Handle.clearSafeOverride i w
  | Poll i timing => Handle.poll i timing w
  | StopPoll i => Handle.stopPoll i w
  | Fulfill i c => Handle.fulfill i c w
  | Settle p o => settle p o w
  | Fire t => fire t w
  | Tick => drain w
  end.

Fixpoint exec (ls : list label) (w : world) : world :=
  match ls with
  | [] => w
  | l :: rest => exec rest (step l w)
  end.

(** * Observations and scenarios

    Readers of the world used in the statements, and the concrete worlds
    the examples run on. *)

Definition params_ab : value := VObj [("a", VNum 1); ("b", VNum 2)].
Definition params_ba : value := VObj [("b", VNum 2); ("a", VNum 1)].
Definition users_ab : config := [("url", VStr "/users"); ("params", params_ab)].
Definition users_ba : config := [("url", VStr "/users"); ("params", params_ba)].

Definition url_missing_or_empty (c : config) : Prop :=
  has_prop "url" c = false \/ get_prop "url" c = VStr EmptyString.

(** The instance after the rest of the body has run. *)
Definition settled_instance (o : outcome) (t : nat) (x : instance) : instance :=
  let x1 := on_outcome o x in
  if 0 <=? pollTiming x1 then set_pollTimer (Some t) x1 else x1.

Definition settlement_event (i : nat) (o : outcome) : event :=
  match o with
  | Fulfilled response => EvResolved i response
  | RejectedWith error => EvRejected i error
  end.

Definition status_of (i : nat) (w : world) : option FetchStatus :=
  (fun x => State.status (state x)) <$> instances w !! i.

Definition error_of (i : nat) (w : world) : option (option failure) :=
  (fun x => State.error (state x)) <$> instances w !! i.

Definition boom : failure := TransportError (VStr "boom").

Definition lazy_a : string + options :=
  inr (mkOptions true true true (fun result => result) true (PollMs (-1))
         [("url", VStr "/a")]).

(** An instance whose first run has failed. *)
Definition after_failure : world :=
  exec [Create lazy_a; Start 0; Settle 0 (RejectedWith boom)] empty_world.

Definition failed_instance : instance :=
  mkInstance (State.mk VNull VNull VNull (Some boom) Done VUndefined)
    (Some 0%nat) (Some 0%nat) (Some (getRequestKey [("url", VStr "/a")]))
    [("url", VStr "/a")] None (PollMs (-1)) true true true
    (fun result => result) true.

(** Two instances created for the same url: the second attaches to the
    call of the first. *)
Definition two_on_a : world :=
  exec [Create (inl "/a"); Create (inl "/a")] empty_world.

Definition loading_a : world := exec [Create (inl "/a")] empty_world.

Definition loading_instance : instance :=
  mkInstance (State.mk VNull VNull VNull None Loading VUndefined)
    (Some 0%nat) (Some 0%nat) (Some (getRequestKey [("url", VStr "/a")]))
    [("url", VStr "/a")] None (PollMs (-1)) false false false
    (fun result => result) false.

Definition override_of (i : nat) (w : world) : option value :=
  (fun x => State.overrideSafeResult (state x)) <$> instances w !! i.

Definition safeResult_of (i : nat) (w : world) : option value :=
  safeResult <$> instances w !! i.

(** The event that tells that a run of instance [i] completed
    successfully. *)
Definition resolves (i : nat) (ev : event) : bool :=
  match ev with
  | EvResolved j _ => Nat.eqb j i
  | _ => false
  end.

Definition quiet (i : nat) (evs : list event) : bool :=
  forallb (fun ev => negb (resolves i ev)) evs.

(** What a turn adds to the log. *)
Definition new_events (l : label) (w : world) : list event :=
  drop (length (log w)) (log (step l w)).

(** The calls of the handle of [i] that assign the override. *)
Definition resets_override (i : nat) (l : label) : bool :=
  match l with
  | ClearSafeOverride j | Clear j | OverrideSafeResult j _ => Nat.eqb j i
  | _ => false
  end.

Definition keeps_override (i : nat) (l : label) (w : world) : bool :=
  negb (resets_override i l) && quiet i (new_events l w).

(** A sequence of turns during which the handle of [i] is not asked to
    set or clear the override and no run of [i] completes successfully. *)
Fixpoint undisturbed (i : nat) (ls : list label) (w : world) : bool :=
  match ls with
  | [] => true
  | l :: rest => keeps_override i l w && undisturbed i rest (step l w)
  end.

Definition idle_a : world := exec [Create lazy_a] empty_world.

Definition idle_instance : instance :=
  mkInstance (State.mk VNull VNull VNull None Inactive VUndefined)
    None None None [("url", VStr "/a")] None (PollMs (-1)) true true true
    (fun result => result) true.

(** An instance is started, stopped, pointed at another url and started
    again; then the call of the first run settles as cancelled. *)
Definition restart_trace : list label :=
  [Create lazy_a; Start 0; Stop 0; Fulfill 0 (inl "/b"); Start 0;
   Settle 0 (RejectedWith CanceledError)].

Definition restarted : world := exec restart_trace empty_world.

Definition key_a : string := getRequestKey [("url", VStr "/a")].
Definition key_b : string := getRequestKey [("url", VStr "/b")].

Definition poll_a : string + options :=
  inr (mkOptions false false false (fun result => result) false (PollMs 1000)
         [("url", VStr "/a")]).

Definition ok : Response.t := Response.mk (VStr "ok") (VNum 200) (VObj []).

(** A polling instance completes its first run, is started by hand, and
    that run completes before the first timer fires. *)
Definition polled_twice : world :=
  exec [Create poll_a; Settle 0 (Fulfilled ok); Start 0; Settle 1 (Fulfilled ok)]
    empty_world.

(** An operation that only appends to the log and that keeps the override
    [v] of instance [i] unless it reports a successful run of [i]. *)
Definition guards (i : nat) (v : value) (op : world -> world) : Prop :=
  forall w, exists evs,
    log (op w) = log w ++ evs /\
    (quiet i evs = true -> override_of i w = Some v -> override_of i (op w) = Some v).

(** The turns in which the transport settles a call. *)
Definition is_settle (l : label) : bool :=
  match l with
  | Settle _ _ => true
  | _ => false
  end.

(** An operation that leaves key [k] registered for promise [p]. *)
Definition keeps_entry (k : string) (p : nat) (op : world -> world) : Prop :=
  forall w, pendingRequests w !! k = Some p -> pendingRequests (op w) !! k = Some p.

(** A string made of white space only (the empty string included). *)
Fixpoint blank (s : string) : bool :=
  match s with
  | EmptyString => true
  | String c rest => is_white_space c && blank rest
  end.

Definition hex_value (c : ascii) : option N :=
  let n := N_of_ascii c in
  if ((48 <=? n) && (n <=? 57))%N then Some (n - 48)%N
  else if ((97 <=? n) && (n <=? 102))%N then Some (n - 87)%N
  else None.

(** Reads back one code unit written by [quote_unit]; [None] at the closing
    quote and on text [quote_unit] never writes.  It is the inverse used to
    show that quoting loses nothing. *)
Definition unquote_unit (s : string) : option (ascii * string) :=
  match s with
  | EmptyString => None
  | String c rest =>
      if (N_of_ascii c =? 92)%N then
        match rest with
        | EmptyString => None
        | String e rest' =>
            let n := N_of_ascii e in
            if (n =? 98)%N then Some (ascii_of_N 8, rest')
            else if (n =? 116)%N then Some (ascii_of_N 9, rest')
            else if (n =? 110)%N then Some (ascii_of_N 10, rest')
            else if (n =? 102)%N then Some (ascii_of_N 12, rest')
            else if (n =? 114)%N then Some (ascii_of_N 13, rest')
            else if (n =? 34)%N then Some (ascii_of_N 34, rest')
            else if (n =? 92)%N then Some (ascii_of_N 92, rest')
            else if (n =? 117)%N then
              match rest' with
              | String _ (String _ (String h (String l rest''))) =>
                  match hex_value h, hex_value l with
                  | Some a, Some b => Some (ascii_of_N (16 * a + b), rest'')
                  | _, _ => None
                  end
              | _ => None
              end
            else None
        end
      else if (N_of_ascii c =? 34)%N then None
      else Some (c, rest)
  end.

(** The instance built by [createFetch] from its options (lines 34-41,
    53-57). *)
Definition new_instance (o : options) : instance :=
  mkInstance (State.mk VNull VNull VNull None Inactive VUndefined)
    None None None (opt_axiosConfig o) None (opt_poll o)
    (opt_onSuccess o) (opt_onError o) (opt_onFinish o)
    (opt_safeResultGetter o) (opt_lazy o).

(** The options a call of the factory stands for. *)
Definition options_of (initialConfig : string + options) : options :=
  match initialConfig with
  | inl url => default_options [("url", VStr url)]
  | inr o => o
  end.

(** An instance that polls every second, between two runs. *)
Definition polling_done : world :=
  exec [Create poll_a; Settle 0 (Fulfilled ok)] empty_world.

Definition polling_instance : instance :=
  mkInstance (State.mk (VStr "ok") (VNum 200) (VObj []) None Done VUndefined)
    (Some 0%nat) (Some 0%nat) (Some (getRequestKey [("url", VStr "/a")]))
    [("url", VStr "/a")] (Some 1%nat) (PollMs 1000) false false false
    (fun result => result) false.

(** Instance 1 awaits the call that instance 0 created. *)
Definition attached_instance : instance :=
  mkInstance (State.mk VNull VNull VNull None Loading VUndefined)
    None (Some 0%nat) (Some (getRequestKey [("url", VStr "/a")]))
    [("url", VStr "/a")] None (PollMs (-1)) false false false
    (fun result => result) false.

Definition first_call : call := mkCall [("url", VStr "/a")] 0 false None.

(** The call [p] with its outcome recorded. *)
Definition mark_settled (p : nat) (c : call) (o : outcome) (w : world) : world :=
  set_calls
    (<[p := mkCall (call_config c) (call_owner c) (call_aborted c) (Some o)]> (calls w)) w.

(** A new instance appended to the instances. *)
Definition push (x : instance) (w : world) : world :=
  set_instances (instances w ++ [x]) w.

(** Instance [i] exists and has left the Inactive status. *)
Definition active (i : nat) (w : world) : Prop :=
  exists x, instances w !! i = Some x /\ State.status (state x) <> Inactive.

(** Every registered key is the key of the config its call was made
    with. *)
Definition registry_sound (w : world) : Prop :=
  forall k p, pendingRequests w !! k = Some p ->
    exists c, calls w !! p = Some c /\ getRequestKey (call_config c) = k.

(** Every controller guards a call that its instance created. *)
Definition controllers_owned (w : world) : Prop :=
  forall j x c, instances w !! j = Some x -> controller x = Some c ->
    exists cl, calls w !! c = Some cl /\ call_owner cl = j.

(** No suspended run, pending timer or transport call belongs to
    instance [i]. *)
Definition untouched (i : nat) (w : world) : bool :=
  forallb (fun r => negb (Nat.eqb r.1 i)) (waiters w)
  && forallb (fun tm => negb (Nat.eqb (timer_inst tm) i)) (timers w)
  && forallb (fun c => negb (Nat.eqb (call_owner c) i)) (calls w).

(** The turns that ask instance [i] to run: [start()] and [resume()]. *)
Definition starts (i : nat) (l : label) : bool :=
  match l with
  | Start j | Resume j => Nat.eqb j i
  | _ => false
  end.

(** Instance [i] is lazy and Inactive and has not run. *)
Definition never_ran (i : nat) (w : world) : Prop :=
  (exists x, instances w !! i = Some x /\ lazy x = true /\
             State.status (state x) = Inactive) /\
  Forall (fun r => r.1 <> i) (waiters w) /\
  Forall (fun tm => timer_inst tm <> i) (timers w) /\
  Forall (fun c => call_owner c <> i) (calls w).

Definition lazy_b : options :=
  mkOptions false false false (fun result => result) true (PollMs 1000)
    [("url", VStr "/b")].

(** Every pending timer has a handle below the next handle. *)
Definition timers_fresh (w : world) : Prop :=
  Forall (fun tm => (timer_id tm < next_timer w)%nat) (timers w).

(** * Properties *)

(** ** Reading instances *)

Section Lookup.
Context (i : nat).

Lemma lookup_upd_eq (f : instance -> instance) (w : world) :
  instances (upd i f w) !! i = f <$> instances w !! i.
Proof. apply list_lookup_alter_eq. Qed.

Lemma lookup_upd_ne (j : nat) (f : instance -> instance) (w : world) :
  j ≠ i -> instances (upd j f w) !! i = instances w !! i.
Proof. intros Hne. by apply list_lookup_alter_ne. Qed.

Lemma lookup_upd_Some (f : instance -> instance) (w : world) (x : instance) :
  instances w !! i = Some x -> instances (upd i f w) !! i = Some (f x).
Proof. intros Hx. by rewrite lookup_upd_eq, Hx. Qed.
End Lookup.

(** ** The request key *)

(** C1, counterexample: two configs with the same method, url and body and
    with params [{a: 1, b: 2}] and [{b: 2, a: 1}] are the same request up to
    field order, and get different keys. *)
Lemma getRequestKey_params_order :
  same_request users_ab users_ba = true /\
  getRequestKey users_ab <> getRequestKey users_ba.
Proof. split; [reflexivity | discriminate]. Qed.

(** The key reads four properties of the config and nothing else. *)
Lemma getRequestKey_reads (c : config) :
  getRequestKey c =
  JSON_stringify_object
    [("method", method_of c); ("url", get_prop "url" c);
     ("params", get_prop "params" c); ("data", get_prop "data" c)].
Proof. reflexivity. Qed.

(** Reordering the config's own fields does not change what is read. *)
Lemma get_prop_Permutation (k : string) (a b : config) :
  NoDup a.*1 -> a ≡ₚ b -> get_prop k a = get_prop k b.
Proof.
  intros Hnd Hp. induction Hp as [|[k' v] a b Hp IH|[k1 v1] [k2 v2] a|a b c Hab IHab Hbc IHbc].
  - done.
  - simpl. destruct (String.eqb k k'); [done|].
    apply IH. by inversion Hnd.
  - simpl. destruct (String.eqb_spec k k2) as [->|]; [|done].
    destruct (String.eqb_spec k2 k1) as [->|]; [|done].
    exfalso. inversion Hnd as [|? ? Hnotin _]; subst.
    apply Hnotin. simpl. left.
  - rewrite IHab by done. apply IHbc. by rewrite <- Hab.
Qed.

Lemma getRequestKey_Permutation (a b : config) :
  NoDup a.*1 -> a ≡ₚ b -> getRequestKey a = getRequestKey b.
Proof.
  intros Hnd Hp. rewrite !getRequestKey_reads. unfold method_of.
  by rewrite !(get_prop_Permutation _ a b).
Qed.

(** C1, amended: two configs whose method (an absent method read as
    ["get"]), url, params and data (the body) are identical values, the
    keys inside params and data in the same order, get equal keys, and so
    do the same two configs with their own fields written in any other
    order. *)
Theorem getRequestKey_equal_fields (a b : config) :
  method_of a = method_of b ->
  get_prop "url" a = get_prop "url" b ->
  get_prop "params" a = get_prop "params" b ->
  get_prop "data" a = get_prop "data" b ->
  getRequestKey a = getRequestKey b /\
  (forall a' b' : config,
     NoDup a.*1 -> NoDup b.*1 -> a ≡ₚ a' -> b ≡ₚ b' ->
     getRequestKey a' = getRequestKey b').
Proof.
  intros Hm Hu Hp Hd.
  assert (Hab : getRequestKey a = getRequestKey b).
  { rewrite !getRequestKey_reads. congruence. }
  split; [done|].
  intros a' b' Hna Hnb Ha Hb.
  by rewrite <- (getRequestKey_Permutation a a'), <- (getRequestKey_Permutation b b').
Qed.

Lemma getRequestKey_equal_fields_witness :
  getRequestKey [("url", VStr "/users"); ("params", params_ab); ("timeout", VNum 5)]
  = getRequestKey [("params", params_ab); ("method", VStr "get"); ("url", VStr "/users")] /\
  getRequestKey [("params", params_ab); ("url", VStr "/users"); ("timeout", VNum 5)]
  = getRequestKey [("method", VStr "get"); ("params", params_ab); ("url", VStr "/users")].
Proof.
  destruct (getRequestKey_equal_fields
              [("url", VStr "/users"); ("params", params_ab); ("timeout", VNum 5)]
              [("params", params_ab); ("method", VStr "get"); ("url", VStr "/users")])
    as [Hsame Hany]; try reflexivity.
  split; [exact Hsame|].
  apply Hany.
  - apply (bool_decide_unpack _). vm_compute. exact I.
  - apply (bool_decide_unpack _). vm_compute. exact I.
  - apply perm_swap.
  - apply perm_swap.
Defined.

(** ** Running without a url *)

Lemma hasUrl_missing_or_empty (c : config) :
  url_missing_or_empty c -> hasUrl c = false.
Proof.
  unfold hasUrl. intros [-> | ->]; [done|]. apply andb_false_r.
Qed.

Lemma runFetch_no_url (i : nat) (c : config) (w : world) :
  hasUrl c = false -> runFetch i c w = emit [EvRejected i ConfigError] w.
Proof. unfold runFetch. by intros ->. Qed.

(** C8: a run whose config has no url, or an empty one, rejects with the
    config error and changes nothing else: the instances (status, result,
    statusCode, headers, error, override and the closure variables), the
    registry, the calls, the suspended runs and the timers are as before. *)
Theorem runFetch_rejects_without_url (i : nat) (c : config) (w : world) :
  url_missing_or_empty c ->
  log (runFetch i c w) = log w ++ [EvRejected i ConfigError] /\
  instances (runFetch i c w) = instances w /\
  pendingRequests (runFetch i c w) = pendingRequests w /\
  calls (runFetch i c w) = calls w /\
  waiters (runFetch i c w) = waiters w /\
  timers (runFetch i c w) = timers w.
Proof.
  intros Hc. by rewrite runFetch_no_url by by apply hasUrl_missing_or_empty.
Qed.

Lemma runFetch_rejects_without_url_witness :
  log (runFetch 0 [("url", VStr EmptyString)] empty_world) = [EvRejected 0 ConfigError] /\
  instances (runFetch 0 [("method", VStr "post")] empty_world) = [].
Proof.
  split.
  - apply (runFetch_rejects_without_url 0 [("url", VStr EmptyString)] empty_world).
    right. reflexivity.
  - apply (runFetch_rejects_without_url 0 [("method", VStr "post")] empty_world).
    left. reflexivity.
Defined.

(** ** What a run does to its instance *)

Lemma runFetch_attach (i : nat) (c : config) (w : world) (p : nat) :
  hasUrl c = true ->
  pendingRequests w !! getRequestKey c = Some p ->
  runFetch i c w =
  set_waiters (waiters w ++ [(i, p)])
    (upd i (with_state (set_status Loading))
       (upd i (set_shared (Some p))
          (upd i (set_currentKey (Some (getRequestKey c))) w))).
Proof.
  intros Hurl Hp. unfold runFetch. rewrite Hurl. simpl. by rewrite Hp.
Qed.

Lemma runFetch_create (i : nat) (c : config) (w : world) :
  hasUrl c = true ->
  pendingRequests w !! getRequestKey c = None ->
  runFetch i c w =
  let p := length (calls w) in
  let w1 := upd i (set_controller (Some p))
              (upd i (set_currentKey (Some (getRequestKey c))) w) in
  let w2 := upd i (set_shared (Some p))
              (set_calls (calls w ++ [mkCall c i false None]) w1) in
  let w3 := set_pending (<[getRequestKey c := p]> (pendingRequests w)) w2 in
  set_waiters (waiters w ++ [(i, p)]) (upd i (with_state (set_status Loading)) w3).
Proof.
  intros Hurl Hp. unfold runFetch. rewrite Hurl. simpl. by rewrite Hp.
Qed.

(** After the synchronous part of a run the instance is Loading; only
    [currentKey], [shared], [controller] and [status] were assigned. *)
Lemma runFetch_instance (i : nat) (c : config) (w : world) (x : instance) :
  hasUrl c = true ->
  instances w !! i = Some x ->
  exists x1,
    instances (runFetch i c w) !! i = Some x1 /\
    State.status (state x1) = Loading /\
    State.error (state x1) = State.error (state x) /\
    State.result (state x1) = State.result (state x) /\
    State.statusCode (state x1) = State.statusCode (state x) /\
    State.headers (state x1) = State.headers (state x) /\
    State.overrideSafeResult (state x1) = State.overrideSafeResult (state x) /\
    currentKey x1 = Some (getRequestKey c).
Proof.
  intros Hurl Hx.
  destruct (pendingRequests w !! getRequestKey c) as [p|] eqn:Hp.
  - rewrite (runFetch_attach _ _ _ p) by done. simpl.
    eexists. split.
    + rewrite !list_lookup_alter_eq, Hx. reflexivity.
    + done.
  - rewrite runFetch_create by done. simpl.
    eexists. split.
    + rewrite !list_lookup_alter_eq, Hx. reflexivity.
    + done.
Qed.

Lemma runFetch_settled_instance (i : nat) (o : outcome) (w : world) (x : instance) :
  instances w !! i = Some x ->
  instances (runFetch_settled i o w) !! i = Some (settled_instance o (next_timer w) x).
Proof.
  intros Hx. unfold runFetch_settled, settled_instance. rewrite Hx.
  destruct (0 <=? pollTiming (on_outcome o x)), (onFinish x), o; simpl;
    by rewrite !list_lookup_alter_eq, Hx.
Qed.

Lemma runFetch_settled_other (i j : nat) (o : outcome) (w : world) :
  j ≠ i ->
  instances (runFetch_settled j o w) !! i = instances w !! i.
Proof.
  intros Hne. unfold runFetch_settled.
  destruct (instances w !! j) as [x|] eqn:Hx; [|done].
  destruct (0 <=? pollTiming (on_outcome o x)), (onFinish x), o; simpl;
    by rewrite !list_lookup_alter_ne.
Qed.

Lemma runFetch_settled_log (i : nat) (o : outcome) (w : world) (x : instance) :
  instances w !! i = Some x ->
  log (runFetch_settled i o w) =
  log w ++ outcome_callback i o x
        ++ (if onFinish x then [EvOnFinish i] else [])
        ++ [settlement_event i o].
Proof.
  intros Hx. unfold runFetch_settled. rewrite Hx.
  destruct (0 <=? pollTiming (on_outcome o x)), (onFinish x), o; simpl;
    by rewrite <- ?app_assoc.
Qed.

(** ** The error field and the Loading status *)

Lemma after_failure_instance : instances after_failure !! 0%nat = Some failed_instance.
Proof. vm_compute. reflexivity. Qed.

(** C4, counterexample: after a failed run, [start()] puts the instance in
    Loading with the earlier error still in the error field. *)
Lemma loading_keeps_error_counterexample :
  error_of 0 after_failure = Some (Some boom) /\
  status_of 0 (Handle.start 0 after_failure) = Some Loading /\
  error_of 0 (Handle.start 0 after_failure) = Some (Some boom).
Proof. repeat split; vm_compute; reflexivity. Qed.

(** C4, amended: for a run on an instance whose error field holds a prior
    failure, the transition into Loading leaves that error in place; the
    error becomes null when the run completes successfully. *)
Theorem runFetch_error_cleared_on_success
    (i : nat) (c : config) (w : world) (x : instance) (response : Response.t) :
  instances w !! i = Some x ->
  hasUrl c = true ->
  exists x1 x2,
    instances (runFetch i c w) !! i = Some x1 /\
    State.status (state x1) = Loading /\
    State.error (state x1) = State.error (state x) /\
    instances (runFetch_settled i (Fulfilled response) (runFetch i c w)) !! i = Some x2 /\
    State.status (state x2) = Done /\
    State.error (state x2) = None.
Proof.
  intros Hx Hurl.
  destruct (runFetch_instance i c w x Hurl Hx) as (x1 & Hx1 & Hst & Herr & _).
  exists x1, (settled_instance (Fulfilled response) (next_timer (runFetch i c w)) x1).
  repeat split; try done.
  - by apply runFetch_settled_instance.
  - unfold settled_instance. by destruct (0 <=? _).
  - unfold settled_instance. by destruct (0 <=? _).
Qed.

Lemma runFetch_error_cleared_on_success_witness :
  exists x1 x2,
    instances (runFetch 0 [("url", VStr "/a")] after_failure) !! 0%nat = Some x1 /\
    State.status (state x1) = Loading /\
    State.error (state x1) = State.error (state failed_instance) /\
    instances
      (runFetch_settled 0 (Fulfilled (Response.mk VNull (VNum 200) VNull))
         (runFetch 0 [("url", VStr "/a")] after_failure)) !! 0%nat = Some x2 /\
    State.status (state x2) = Done /\
    State.error (state x2) = None.
Proof.
  apply (runFetch_error_cleared_on_success 0 [("url", VStr "/a")] after_failure
           failed_instance (Response.mk VNull (VNum 200) VNull)).
  - vm_compute. reflexivity.
  - reflexivity.
Defined.

(** ** A run whose call is rejected *)

(** C5: when the awaited call rejects with an error that is not a
    cancellation, the run sets [error] to that error and [status] to Done,
    leaves [result], [statusCode] and [headers] as they were, calls
    [onError] once and then [onFinish] once (each when it is configured),
    and rejects its own promise with the same error. *)
Theorem runFetch_settled_rejection (i : nat) (e : failure) (w : world) (x : instance) :
  instances w !! i = Some x ->
  isCancel e = false ->
  exists x',
    instances (runFetch_settled i (RejectedWith e) w) !! i = Some x' /\
    State.error (state x') = Some e /\
    State.status (state x') = Done /\
    State.result (state x') = State.result (state x) /\
    State.statusCode (state x') = State.statusCode (state x) /\
    State.headers (state x') = State.headers (state x) /\
    log (runFetch_settled i (RejectedWith e) w) =
      log w ++ (if onError x then [EvOnError i] else [])
            ++ (if onFinish x then [EvOnFinish i] else [])
            ++ [EvRejected i e].
Proof.
  intros Hx He.
  exists (settled_instance (RejectedWith e) (next_timer w) x).
  split; [by apply runFetch_settled_instance|].
  rewrite (runFetch_settled_log i _ w x Hx).
  unfold settled_instance, outcome_callback, on_outcome. rewrite He. simpl.
  by destruct (0 <=? _).
Qed.

Lemma runFetch_settled_rejection_witness :
  exists x',
    instances (runFetch_settled 0 (RejectedWith boom) after_failure) !! 0%nat = Some x' /\
    State.error (state x') = Some boom /\
    State.status (state x') = Done /\
    State.result (state x') = State.result (state failed_instance) /\
    State.statusCode (state x') = State.statusCode (state failed_instance) /\
    State.headers (state x') = State.headers (state failed_instance) /\
    log (runFetch_settled 0 (RejectedWith boom) after_failure) =
      log after_failure ++ (if onError failed_instance then [EvOnError 0%nat] else [])
            ++ (if onFinish failed_instance then [EvOnFinish 0%nat] else [])
            ++ [EvRejected 0 boom].
Proof.
  apply (runFetch_settled_rejection 0 boom after_failure failed_instance).
  - vm_compute. reflexivity.
  - reflexivity.
Defined.

(** The whole turn, for a call awaited by one run: the transport rejects
    call [p], the registry callback runs, the run of [i] is resumed. *)
Example rejection_turn :
  let w := exec [Create lazy_a; Start 0; Settle 0 (RejectedWith boom)] empty_world in
  log w = [EvOnError 0%nat; EvOnFinish 0%nat; EvRejected 0 boom] /\
  status_of 0 w = Some Done /\ error_of 0 w = Some (Some boom).
Proof. repeat split; vm_compute; reflexivity. Qed.

(** ** [stop] *)


Lemma runFetch_settled_cancel (i : nat) (w : world) (x : instance) :
  instances w !! i = Some x ->
  exists x',
    instances (runFetch_settled i (RejectedWith CanceledError) w) !! i = Some x' /\
    state x' = state x /\
    log (runFetch_settled i (RejectedWith CanceledError) w) =
      log w ++ (if onFinish x then [EvOnFinish i] else [])
            ++ [EvRejected i CanceledError].
Proof.
  intros Hx. exists (settled_instance (RejectedWith CanceledError) (next_timer w) x).
  split; [by apply runFetch_settled_instance|].
  rewrite (runFetch_settled_log i _ w x Hx).
  unfold settled_instance. simpl. by destruct (0 <=? _).
Qed.



(** ** The safe-result override *)

Section Override.
Context (i : nat) (v : value).

Lemma guards_ext (op op' : world -> world) :
  (forall w, op w = op' w) -> guards i v op' -> guards i v op.
Proof. intros Heq H w. rewrite Heq. apply H. Qed.

Lemma guards_id : guards i v (fun w => w).
Proof. intros w. exists []. by rewrite app_nil_r. Qed.

Lemma guards_compose (op1 op2 : world -> world) :
  guards i v op1 -> guards i v op2 -> guards i v (fun w => op2 (op1 w)).
Proof.
  intros H1 H2 w.
  destruct (H1 w) as (e1 & Hl1 & Hk1), (H2 (op1 w)) as (e2 & Hl2 & Hk2).
  exists (e1 ++ e2). split.
  - by rewrite Hl2, Hl1, app_assoc.
  - unfold quiet. rewrite forallb_app. intros [Hq1 Hq2]%andb_prop Hw. auto.
Qed.

(** Operations that touch neither the log nor the instances. *)
Lemma guards_frame (op : world -> world) :
  (forall w, log (op w) = log w /\ instances (op w) = instances w) -> guards i v op.
Proof.
  intros H w. destruct (H w) as [Hl Hi]. exists []. split.
  - by rewrite app_nil_r.
  - unfold override_of. by rewrite Hi.
Qed.

Lemma guards_emit (evs : list event) : guards i v (emit evs).
Proof. intros w. by exists evs. Qed.

Lemma guards_upd (j : nat) (f : instance -> instance) :
  (forall x, State.overrideSafeResult (state (f x)) = State.overrideSafeResult (state x)) ->
  guards i v (upd j f).
Proof.
  intros Hf w. exists []. split; [by rewrite app_nil_r|].
  intros _. unfold override_of, upd. simpl.
  destruct (decide (j = i)) as [->|Hne].
  - rewrite list_lookup_alter_eq.
    destruct (instances w !! i); simpl; [|done]. by rewrite Hf.
  - by rewrite list_lookup_alter_ne.
Qed.

Lemma guards_upd_other (j : nat) (f : instance -> instance) :
  j ≠ i -> guards i v (upd j f).
Proof.
  intros Hne w. exists []. split; [by rewrite app_nil_r|].
  intros _. unfold override_of, upd. simpl. by rewrite list_lookup_alter_ne.
Qed.

Lemma guards_runFetch (j : nat) (c : config) : guards i v (runFetch j c).
Proof.
  intros w. unfold runFetch.
  destruct (hasUrl c); simpl; [|apply guards_emit].
  exists []. split; [|intros _].
  - rewrite app_nil_r. by destruct (pendingRequests w !! getRequestKey c).
  - destruct (pendingRequests w !! getRequestKey c); simpl; unfold override_of; simpl;
      intros Hw; destruct (decide (j = i)) as [->|Hne];
      rewrite ?list_lookup_alter_eq, ?list_lookup_alter_ne by done; try done;
      by destruct (instances w !! i).
Qed.

Lemma guards_runFetch_settled (j : nat) (o : outcome) : guards i v (runFetch_settled j o).
Proof.
  intros w. destruct (instances w !! j) as [x|] eqn:Hx.
  - eexists. split; [by apply runFetch_settled_log|].
    unfold quiet. rewrite !forallb_app. simpl. rewrite andb_true_r.
    intros Hq. apply andb_prop in Hq as [_ Hq]. apply andb_prop in Hq as [_ Hq].
    revert Hq. unfold override_of.
    destruct (decide (j = i)) as [->|Hne].
    + rewrite (runFetch_settled_instance i o w x Hx), Hx. simpl.
      destruct o as [r|e]; simpl.
      * by rewrite Nat.eqb_refl.
      * intros _. unfold settled_instance, on_outcome.
        by destruct (negb (isCancel e)), (0 <=? _).
    + intros _. by rewrite runFetch_settled_other.
  - unfold runFetch_settled. rewrite Hx. apply guards_id.
Qed.

Lemma guards_resume_all (rs : list (nat * nat)) : guards i v (resume_all rs).
Proof.
  induction rs as [|[j p] rs IH]; [apply guards_id|].
  simpl. apply (guards_compose
    (fun w => match outcome_of p w with
              | Some o => runFetch_settled j o w
              | None => w
              end) (resume_all rs)); [|done].
  intros w. destruct (outcome_of p w) as [o|].
  - apply guards_runFetch_settled.
  - apply guards_id.
Qed.

Lemma guards_drain : guards i v drain.
Proof.
  intros w. unfold drain.
  apply (guards_compose
           (set_waiters (List.filter (fun r => negb (is_settled w r)) (waiters w)))
           (resume_all (waiters w))).
  - by apply guards_frame.
  - apply guards_resume_all.
Qed.

Lemma guards_settle (p : nat) (o : outcome) : guards i v (settle p o).
Proof.
  intros w. unfold settle.
  destruct (calls w !! p) as [c|]; [|apply guards_id].
  destruct (call_outcome c); [apply guards_id|].
  apply (guards_compose
    (fun w => finally_callback (call_owner c)
       (set_calls (<[p := mkCall (call_config c) (call_owner c)
                                 (call_aborted c) (Some o)]> (calls w)) w))
    drain); [|apply guards_drain].
  apply guards_frame. intros w'. unfold finally_callback. simpl.
  destruct (instances w' !! call_owner c) as [x|]; [|done].
  by destruct (currentKey x).
Qed.
Lemma guards_fire (t : nat) : guards i v (fire t).
Proof.
  intros w. unfold fire.
  destruct (List.find _ (timers w)) as [tm|]; [|apply guards_id].
  destruct (instances (clearTimeout t w) !! timer_inst tm) as [x|].
  - apply (guards_compose (clearTimeout t) (runFetch (timer_inst tm) (currentConfig x))).
    + by apply guards_frame.
    + apply guards_runFetch.
  - by apply guards_frame.
Qed.

Lemma guards_poll (j : nat) (timing : poll_setting) : guards i v (Handle.poll j timing).
Proof.
  intros w. unfold Handle.poll.
  destruct (instances (upd j (set_poll timing) w) !! j) as [x|];
    [|by apply guards_upd].
  destruct (_ && _).
  - apply (guards_compose (upd j (set_poll timing)) (runFetch j (currentConfig x)));
      [by apply guards_upd | apply guards_runFetch].
  - by apply guards_upd.
Qed.

Lemma guards_stopPoll (j : nat) : guards i v (Handle.stopPoll j).
Proof.
  intros w. unfold Handle.stopPoll.
  destruct (instances w !! j) as [x|]; [|apply guards_id].
  destruct (pollTimer x) as [t|]; [|apply guards_id].
  apply (guards_compose (clearTimeout t) (upd j (set_pollTimer None)));
    [by apply guards_frame | by apply guards_upd].
Qed.

Lemma guards_stop (j : nat) : guards i v (Handle.stop j).
Proof.
  intros w. unfold Handle.stop.
  destruct (instances w !! j) as [x|]; [|apply guards_id].
  destruct (controller x) as [c|]; [|apply guards_id].
  destruct (FetchStatus_eqb _ _); [|apply guards_id].
  apply (guards_compose (abort c) (upd j (with_state (set_status Done))));
    [by apply guards_frame | by apply guards_upd].
Qed.

Lemma guards_resume (j : nat) : guards i v (Handle.resume j).
Proof.
  intros w. unfold Handle.resume.
  destruct (instances w !! j) as [x|]; [|apply guards_id].
  destruct (FetchStatus_eqb _ _); [apply guards_runFetch | apply guards_id].
Qed.

Lemma guards_start (j : nat) : guards i v (Handle.start j).
Proof.
  intros w. unfold Handle.start.
  destruct (instances w !! j) as [x|]; [|apply guards_id].
  destruct (negb _); [apply guards_runFetch | apply guards_id].
Qed.

Lemma guards_createFetch (init : string + options) : guards i v (createFetch init).
Proof.
  intros w. unfold createFetch.
  set (o := match init with inl url => _ | inr o => o end).
  set (x := mkInstance _ _ _ _ _ _ _ _ _ _ _ _).
  assert (Hpush : guards i v (fun w => set_instances (instances w ++ [x]) w)).
  { intros w'. exists []. split; [by rewrite app_nil_r|].
    intros _. unfold override_of. simpl. intros Hw.
    rewrite lookup_app_l; [done|].
    apply lookup_lt_is_Some. destruct (instances w' !! i); [eauto | done]. }
  destruct (_ && _).
  - apply (guards_compose _ (runFetch (length (instances w)) (currentConfig x)) Hpush).
    apply guards_runFetch.
  - apply (guards_compose _ (upd (length (instances w)) (with_state (set_status Inactive)))
             Hpush).
    by apply guards_upd.
Qed.

Lemma guards_step (l : label) : resets_override i l = false -> guards i v (step l).
Proof.
  destruct l as [init|j|j|j|j|j u|j|j timing|j|j c|p o|t|]; simpl; intros Hl.
  - apply guards_createFetch.
  - apply guards_start.
  - apply guards_resume.
  - apply guards_stop.
  - apply guards_upd_other. by apply Nat.eqb_neq.
  - apply guards_upd_other. by apply Nat.eqb_neq.
  - apply guards_upd_other. by apply Nat.eqb_neq.
  - apply guards_poll.
  - apply guards_stopPoll.
  - by apply guards_upd.
  - apply guards_settle.
  - apply guards_fire.
  - apply guards_drain.
Qed.

Lemma undisturbed_override (ls : list label) (w : world) :
  undisturbed i ls w = true ->
  override_of i w = Some v ->
  override_of i (exec ls w) = Some v.
Proof.
  revert w. induction ls as [|l ls IH]; intros w; simpl; [done|].
  intros [[Hl Hq]%andb_prop Hrest]%andb_prop Hw.
  apply IH; [done|].
  apply negb_true_iff in Hl.
  destruct (guards_step l Hl w) as (evs & Hlog & Hkeep).
  apply Hkeep; [|done].
  unfold new_events in Hq. by rewrite Hlog, drop_app_length in Hq.
Qed.
End Override.

Lemma safeResult_of_override (i : nat) (v : value) (w : world) :
  v <> VUndefined -> override_of i w = Some v -> safeResult_of i w = Some v.
Proof.
  unfold override_of, safeResult_of, safeResult. intros Hv.
  destruct (instances w !! i) as [x|]; simpl; [|done].
  intros [= Hx]. rewrite Hx. by destruct v.
Qed.

(** C7, counterexample: with [v = undefined] the safe result after
    [overrideSafeResult(v)] is [safeResultGetter(result)], here [null], not
    [v]; and an override ["x"] is ended by [clear()], which is neither
    [clearSafeOverride()] nor a successful run. *)
Lemma overrideSafeResult_counterexample :
  safeResult_of 0 (Handle.overrideSafeResult 0 VUndefined idle_a) = Some VNull /\
  safeResult_of 0 (Handle.overrideSafeResult 0 (VStr "x") idle_a) = Some (VStr "x") /\
  safeResult_of 0 (Handle.clear 0 (Handle.overrideSafeResult 0 (VStr "x") idle_a))
    = Some VNull.
Proof. repeat split; vm_compute; reflexivity. Qed.

(** C7, amended: for every value [v] other than [undefined], after
    [overrideSafeResult(v)] the safe result is [v], and it stays [v] through
    every sequence of turns in which the handle is not asked to set or clear
    the override ([overrideSafeResult], [clearSafeOverride], [clear]) and no
    run of the instance completes successfully; a [clearSafeOverride()] or a
    successful completion then makes it [safeResultGetter(result)]. *)
Theorem overrideSafeResult_until_reset
    (i : nat) (v : value) (w : world) (x : instance) (ls : list label) :
  instances w !! i = Some x ->
  v <> VUndefined ->
  undisturbed i ls (Handle.overrideSafeResult i v w) = true ->
  safeResult_of i (exec ls (Handle.overrideSafeResult i v w)) = Some v /\
  (exists y,
     instances (Handle.clearSafeOverride i (exec ls (Handle.overrideSafeResult i v w))) !! i
       = Some y /\
     safeResult y = safeResultGetter y (State.result (state y))) /\
  (forall response, exists y,
     instances (runFetch_settled i (Fulfilled response)
                  (exec ls (Handle.overrideSafeResult i v w))) !! i = Some y /\
     State.result (state y) = Response.data response /\
     safeResult y = safeResultGetter y (State.result (state y))).
Proof.
  intros Hx Hv Hls.
  assert (H0 : override_of i (Handle.overrideSafeResult i v w) = Some v).
  { unfold override_of, Handle.overrideSafeResult. by rewrite lookup_upd_eq, Hx. }
  pose proof (undisturbed_override i v ls _ Hls H0) as H1.
  split; [by apply safeResult_of_override|].
  unfold override_of in H1.
  destruct (instances (exec ls (Handle.overrideSafeResult i v w)) !! i) as [y|] eqn:Hy;
    [|done].
  split.
  - exists (with_state (set_override VUndefined) y). split; [|done].
    by apply lookup_upd_Some.
  - intros response. eexists. split; [by apply runFetch_settled_instance|].
    unfold settled_instance. by destruct (0 <=? _).
Qed.

Lemma overrideSafeResult_until_reset_witness :
  safeResult_of 0
    (exec [Start 0; Settle 0 (RejectedWith boom); Fulfill 0 (inl "/b"); Start 0]
       (Handle.overrideSafeResult 0 (VStr "x") idle_a)) = Some (VStr "x").
Proof.
  apply (overrideSafeResult_until_reset 0 (VStr "x") idle_a idle_instance
           [Start 0; Settle 0 (RejectedWith boom); Fulfill 0 (inl "/b"); Start 0]).
  - vm_compute. reflexivity.
  - discriminate.
  - vm_compute. reflexivity.
Defined.

(** C10: [overrideSafeResult(undefined)] is [clearSafeOverride()]: the two
    calls leave the same world, the safe result is at once
    [safeResultGetter(result)], and an instance whose override field is
    [undefined] never shows it as its safe result: it shows
    [safeResultGetter(result)]. *)
Theorem overrideSafeResult_undefined_clears (i : nat) (w : world) (x : instance) :
  instances w !! i = Some x ->
  Handle.overrideSafeResult i VUndefined w = Handle.clearSafeOverride i w /\
  safeResult_of i (Handle.overrideSafeResult i VUndefined w)
    = Some (safeResultGetter x (State.result (state x))) /\
  (forall y, State.overrideSafeResult (state y) = VUndefined ->
             safeResult y = safeResultGetter y (State.result (state y))).
Proof.
  intros Hx. split; [done|]. split.
  - unfold safeResult_of, Handle.overrideSafeResult. by rewrite lookup_upd_eq, Hx.
  - intros y Hy. unfold safeResult. by rewrite Hy.
Qed.

Lemma overrideSafeResult_undefined_clears_witness :
  Handle.overrideSafeResult 0 VUndefined idle_a = Handle.clearSafeOverride 0 idle_a /\
  safeResult_of 0 (Handle.overrideSafeResult 0 VUndefined idle_a)
    = Some (safeResultGetter idle_instance (State.result (state idle_instance))) /\
  (forall y, State.overrideSafeResult (state y) = VUndefined ->
             safeResult y = safeResultGetter y (State.result (state y))).
Proof.
  apply (overrideSafeResult_undefined_clears 0 idle_a idle_instance).
  vm_compute. reflexivity.
Defined.

(** ** Sharing of calls through the registry *)

(** A run leaves its key registered for the promise it awaits. *)
Lemma runFetch_registers (i : nat) (c : config) (w : world) :
  hasUrl c = true ->
  exists p,
    pendingRequests (runFetch i c w) !! getRequestKey c = Some p /\
    waiters (runFetch i c w) = waiters w ++ [(i, p)].
Proof.
  intros Hurl. destruct (pendingRequests w !! getRequestKey c) as [p|] eqn:Hp.
  - exists p. by rewrite (runFetch_attach _ _ _ p).
  - exists (length (calls w)). rewrite runFetch_create by done. simpl.
    by rewrite lookup_insert_eq.
Qed.

(** A run that finds its key registered issues no transport call. *)
Lemma runFetch_attach_calls (i : nat) (c : config) (w : world) (p : nat) :
  hasUrl c = true ->
  pendingRequests w !! getRequestKey c = Some p ->
  calls (runFetch i c w) = calls w /\
  waiters (runFetch i c w) = waiters w ++ [(i, p)].
Proof. intros Hurl Hp. by rewrite (runFetch_attach _ _ _ p). Qed.

(** Two runs with the same key, the second directly after the first: at
    most one transport call is issued and both await the same promise. *)
Lemma runFetch_twice_shared (i j : nat) (c c' : config) (w : world) :
  hasUrl c = true -> hasUrl c' = true ->
  getRequestKey c = getRequestKey c' ->
  exists p,
    calls (runFetch j c' (runFetch i c w)) = calls (runFetch i c w) /\
    waiters (runFetch j c' (runFetch i c w)) = waiters w ++ [(i, p); (j, p)].
Proof.
  intros Hc Hc' Hk.
  destruct (runFetch_registers i c w Hc) as (p & Hp & Hw).
  exists p. rewrite Hk in Hp.
  destruct (runFetch_attach_calls j c' _ p Hc' Hp) as [Hcalls Hw'].
  split; [done|]. by rewrite Hw', Hw, <- app_assoc.
Qed.

(** Only the [.finally] callback removes keys: as long as the transport
    settles no call, a registered key stays registered for the same
    promise. *)
Section Registry.
Context (k : string) (p : nat).

Lemma keeps_entry_runFetch (j : nat) (c : config) : keeps_entry k p (runFetch j c).
Proof.
  intros w Hw. unfold runFetch.
  destruct (hasUrl c); simpl; [|done].
  destruct (pendingRequests w !! getRequestKey c) as [q|] eqn:Hq; simpl; [done|].
  rewrite lookup_insert_ne; [done|]. intros Heq. rewrite Heq in Hq. congruence.
Qed.

Lemma pendingRequests_runFetch_settled (j : nat) (o : outcome) (w : world) :
  pendingRequests (runFetch_settled j o w) = pendingRequests w.
Proof.
  unfold runFetch_settled. destruct (instances w !! j) as [x|]; [|done].
  by destruct (0 <=? _), (onFinish x), o.
Qed.

Lemma pendingRequests_resume_all (rs : list (nat * nat)) (w : world) :
  pendingRequests (resume_all rs w) = pendingRequests w.
Proof.
  revert w. induction rs as [|[j q] rs IH]; intros w; simpl; [done|].
  rewrite IH. destruct (outcome_of q w); [|done].
  apply pendingRequests_runFetch_settled.
Qed.

Lemma pendingRequests_drain (w : world) : pendingRequests (drain w) = pendingRequests w.
Proof. unfold drain. by rewrite pendingRequests_resume_all. Qed.

Lemma keeps_entry_createFetch (init : string + options) :
  keeps_entry k p (createFetch init).
Proof.
  intros w Hw. unfold createFetch. cbv zeta.
  destruct (negb _ && hasUrl _); [|done]. by apply keeps_entry_runFetch.
Qed.

Lemma keeps_entry_step (l : label) : is_settle l = false -> keeps_entry k p (step l).
Proof.
  destruct l as [init|j|j|j|j|j u|j|j timing|j|j c|q o|t|]; intros Hl w Hw;
    try discriminate Hl; unfold step; try done.
  - by apply keeps_entry_createFetch.
  - unfold Handle.start. destruct (instances w !! j) as [x|]; [|done].
    destruct (negb _); [|done]. by apply keeps_entry_runFetch.
  - unfold Handle.resume. destruct (instances w !! j) as [x|]; [|done].
    destruct (FetchStatus_eqb _ _); [|done]. by apply keeps_entry_runFetch.
  - unfold Handle.stop. destruct (instances w !! j) as [x|]; [|done].
    destruct (controller x); [|done]. by destruct (FetchStatus_eqb _ _).
  - unfold Handle.poll. destruct (instances _ !! j) as [x|]; [|done].
    destruct (_ && _); [|done]. by apply keeps_entry_runFetch.
  - unfold Handle.stopPoll. destruct (instances w !! j) as [x|]; [|done].
    by destruct (pollTimer x).
  - unfold fire. destruct (List.find _ _) as [tm|]; [|done].
    destruct (instances _ !! timer_inst tm) as [x|]; [|done].
    by apply keeps_entry_runFetch.
  - by rewrite pendingRequests_drain.
Qed.

Lemma keeps_entry_exec (ls : list label) :
  forallb (fun l => negb (is_settle l)) ls = true -> keeps_entry k p (exec ls).
Proof.
  induction ls as [|l ls IH]; simpl; [by intros _ w Hw|].
  intros [Hl Hls]%andb_prop w Hw.
  apply IH; [done|]. apply keeps_entry_step; [|done]. by apply negb_true_iff.
Qed.
End Registry.

(** Two runs with the same key, with any turns in between in which the
    transport settles no call: the second run issues no transport call and
    awaits the promise the first one awaits. *)
Lemma runFetch_shared_until_settlement
    (i j : nat) (c c' : config) (ls : list label) (w : world) :
  hasUrl c = true -> hasUrl c' = true ->
  getRequestKey c = getRequestKey c' ->
  forallb (fun l => negb (is_settle l)) ls = true ->
  exists p,
    waiters (runFetch i c w) = waiters w ++ [(i, p)] /\
    calls (runFetch j c' (exec ls (runFetch i c w))) = calls (exec ls (runFetch i c w)) /\
    waiters (runFetch j c' (exec ls (runFetch i c w)))
      = waiters (exec ls (runFetch i c w)) ++ [(j, p)].
Proof.
  intros Hc Hc' Hk Hls.
  destruct (runFetch_registers i c w Hc) as (p & Hp & Hw).
  exists p. split; [done|].
  apply runFetch_attach_calls; [done|].
  rewrite <- Hk. by apply keeps_entry_exec.
Qed.

(** The callback removes the key that [currentKey] holds when it runs. *)
Lemma settle_removes_currentKey
    (p : nat) (o : outcome) (w : world) (c : call) (x : instance) (k : string) :
  calls w !! p = Some c ->
  call_outcome c = None ->
  instances w !! call_owner c = Some x ->
  currentKey x = Some k ->
  pendingRequests (settle p o w) = delete k (pendingRequests w).
Proof.
  intros Hc Ho Hx Hk. unfold settle. rewrite Hc, Ho.
  rewrite pendingRequests_drain. unfold finally_callback. simpl.
  by rewrite Hx, Hk.
Qed.

(** C3 does not hold on the code.  In [restarted], call 0 (key of [/a])
    has settled, and the callback has removed the key of [/b], the value of
    [currentKey] when it ran.  The key of [/a] is still registered for the
    settled promise, so a later run for [/a] starts no transport call and
    awaits that promise. *)
Lemma settled_key_stays_registered :
  outcome_of 0 restarted = Some (RejectedWith CanceledError) /\
  pendingRequests restarted !! key_a = Some 0%nat /\
  pendingRequests restarted !! key_b = None /\
  length (calls restarted) = 2%nat /\
  length (calls (createFetch (inl "/a") restarted)) = 2%nat /\
  waiters (createFetch (inl "/a") restarted) = [(0, 1); (1, 0)]%nat.
Proof. repeat split; vm_compute; reflexivity. Qed.

(** C2 does not hold on the code.  In [restarted], the run of instance 0
    for [/b] awaits call 1,
    which has not settled; a run of a new instance for [/b] issues a second
    transport call for the same key and awaits it instead. *)
Lemma same_key_two_calls :
  waiters restarted = [(0, 1)]%nat /\
  outcome_of 1 restarted = None /\
  (getRequestKey <$> (call_config <$> calls restarted)) = [key_a; key_b] /\
  (getRequestKey <$> (call_config <$> calls (createFetch (inl "/b") restarted)))
    = [key_a; key_b; key_b] /\
  outcome_of 2 (createFetch (inl "/b") restarted) = None /\
  waiters (createFetch (inl "/b") restarted) = [(0, 1); (1, 2)]%nat.
Proof. repeat split; vm_compute; reflexivity. Qed.

(** ** Poll timers *)

(** C9 does not hold on the code.  In [polled_twice], two timers of the
    same instance are pending;
    [stopPoll()] clears the one in [pollTimer], the other stays pending and
    starts a run when it fires. *)
Lemma two_pending_timers :
  timers polled_twice = [mkTimer 1 0 1000; mkTimer 2 0 1000] /\
  (pollTimer <$> instances polled_twice !! 0%nat) = Some (Some 2%nat) /\
  timers (Handle.stopPoll 0 polled_twice) = [mkTimer 1 0 1000] /\
  (pollTimer <$> instances (Handle.stopPoll 0 polled_twice) !! 0%nat) = Some None /\
  status_of 0 (Handle.stopPoll 0 polled_twice) = Some Done /\
  status_of 0 (fire 1 (Handle.stopPoll 0 polled_twice)) = Some Loading /\
  length (calls (fire 1 (Handle.stopPoll 0 polled_twice))) = 3%nat.
Proof. repeat split; vm_compute; reflexivity. Qed.

(** ** Which configs have a url *)

Lemma trim_start_blank (s : string) : blank (trim_start s) = blank s.
Proof.
  induction s as [|c s IH]; simpl; [done|].
  destruct (is_white_space c) eqn:Hc; simpl; [done|]. by rewrite Hc.
Qed.

Lemma trim_end_empty (s : string) : trim_end s = EmptyString <-> blank s = true.
Proof.
  induction s as [|c s IH]; simpl; [done|].
  destruct (trim_end s) as [|d t].
  - destruct (is_white_space c); simpl; [|done].
    split; [intros _; by apply IH | done].
  - split; [done|]. intros [_ Hs]%andb_prop. by apply IH in Hs.
Qed.

Lemma trim_length (s : string) :
  (0 <? String.length (trim s))%nat = negb (blank s).
Proof.
  unfold trim. rewrite <- (trim_start_blank s).
  destruct (trim_end (trim_start s)) as [|c t] eqn:Ht.
  - apply trim_end_empty in Ht. by rewrite Ht.
  - destruct (blank (trim_start s)) eqn:Hb; [|done].
    apply trim_end_empty in Hb. congruence.
Qed.

Lemma get_prop_has_prop (k : string) (o : list (string * value)) :
  get_prop k o <> VUndefined -> has_prop k o = true.
Proof.
  induction o as [|[k' v] o IH]; simpl; [done|].
  destruct (String.eqb k k'); [done|]. apply IH.
Qed.

(** X1: [hasUrl] accepts exactly the configs whose [url] property is a
    string with at least one character that is not white space; a missing
    url, a url that is not a string, an empty or an all-blank url are
    refused. *)
Theorem hasUrl_iff (c : config) :
  hasUrl c = true <->
  exists url, get_prop "url" c = VStr url /\ blank url = false.
Proof.
  unfold hasUrl. split.
  - intros [_ H]%andb_prop.
    destruct (get_prop "url" c) as [| | | |url| |]; try done.
    exists url. split; [done|].
    rewrite trim_length in H. by apply negb_true_iff.
  - intros (url & Hurl & Hb).
    rewrite get_prop_has_prop by (rewrite Hurl; discriminate).
    rewrite Hurl, trim_length, Hb. done.
Qed.

(** ** Keys of different urls *)

Lemma append_assoc (a b c : string) : (a +:+ b) +:+ c = a +:+ (b +:+ c).
Proof.
  induction a as [|x a IH]; [done|].
  change (String x ((a +:+ b) +:+ c) = String x (a +:+ b +:+ c)). by rewrite IH.
Qed.

Lemma append_inj_l (a x y : string) : a +:+ x = a +:+ y -> x = y.
Proof.
  induction a as [|c a IH]; [done|].
  change (String c (a +:+ x) = String c (a +:+ y) -> x = y).
  intros [= H]. by apply IH.
Qed.

Lemma unquote_quote_unit (c : ascii) (r : string) :
  unquote_unit (quote_unit c +:+ r) = Some (c, r).
Proof. destruct c as [[] [] [] [] [] [] [] []]; reflexivity. Qed.

Lemma unquote_unit_dquote (r : string) : unquote_unit (dquote +:+ r) = None.
Proof. reflexivity. Qed.

(** A quoted string ends at its closing quote: what was quoted and what
    follows can be read back. *)
Lemma quote_units_delimited (u1 u2 r1 r2 : string) :
  quote_units u1 +:+ dquote +:+ r1 = quote_units u2 +:+ dquote +:+ r2 ->
  u1 = u2 /\ r1 = r2.
Proof.
  revert u2. induction u1 as [|c1 u1 IH]; intros [|c2 u2];
    cbn [quote_units]; rewrite ?append_assoc; intros H.
  - cbv in H. by injection H as ->.
  - apply (f_equal unquote_unit) in H.
    rewrite unquote_quote_unit in H. discriminate H.
  - apply (f_equal unquote_unit) in H.
    rewrite unquote_quote_unit in H. discriminate H.
  - pose proof (f_equal unquote_unit H) as H'.
    rewrite !unquote_quote_unit in H'. injection H' as -> Hrest.
    destruct (IH _ Hrest) as [-> ->]. done.
Qed.

(** The key starts with the method and the url, each closed by its
    quote. *)
Lemma getRequestKey_shape (c : config) (m u : string) :
  method_of c = VStr m ->
  get_prop "url" c = VStr u ->
  exists tail,
    getRequestKey c =
    "{" +:+ QuoteJSONString "method" +:+ ":" +:+ dquote +:+ quote_units m +:+ dquote +:+
    "," +:+ QuoteJSONString "url" +:+ ":" +:+ dquote +:+ quote_units u +:+ dquote +:+ tail.
Proof.
  intros Hm Hu. rewrite getRequestKey_reads, Hm, Hu.
  unfold JSON_stringify_object, SerializeJSONProperty; fold SerializeJSONProperty.
  destruct (SerializeJSONProperty (get_prop "params" c)) as [tp|],
           (SerializeJSONProperty (get_prop "data" c)) as [td|];
    eexists; unfold QuoteJSONString, String.concat; rewrite !append_assoc;
    reflexivity.
Qed.

(** X2: two configs whose methods and urls are strings get the same key
    only if they have the same method and the same url: requests to
    different urls, or with different methods, are never taken for one
    another. *)
Theorem getRequestKey_method_url_injective (a b : config) (m1 m2 u1 u2 : string) :
  method_of a = VStr m1 -> method_of b = VStr m2 ->
  get_prop "url" a = VStr u1 -> get_prop "url" b = VStr u2 ->
  getRequestKey a = getRequestKey b ->
  m1 = m2 /\ u1 = u2.
Proof.
  intros Ha Hb Hua Hub Hk.
  destruct (getRequestKey_shape a m1 u1 Ha Hua) as (ta & Hka).
  destruct (getRequestKey_shape b m2 u2 Hb Hub) as (tb & Hkb).
  rewrite Hka, Hkb in Hk.
  do 4 apply append_inj_l in Hk.
  apply quote_units_delimited in Hk as [-> Hk].
  do 4 apply append_inj_l in Hk.
  by apply quote_units_delimited in Hk as [-> _].
Qed.

Lemma getRequestKey_method_url_injective_witness :
  "get" = "get" /\ "/a?x=1" = "/a?x=1".
Proof.
  apply (getRequestKey_method_url_injective
           [("url", VStr "/a?x=1"); ("timeout", VNum 5)]
           [("method", VStr "get"); ("url", VStr "/a?x=1")]); reflexivity.
Defined.

(** ** A run that succeeds *)

(** X3: when the awaited call is fulfilled, the run clears the override,
    takes [result], [statusCode] and [headers] from the response, sets
    [error] to null and [status] to Done, so that the safe result is
    [safeResultGetter(response.data)]; it calls [onSuccess] and then
    [onFinish], each once when configured, and resolves with the
    response. *)
Theorem runFetch_settled_success
    (i : nat) (response : Response.t) (w : world) (x : instance) :
  instances w !! i = Some x ->
  exists x',
    instances (runFetch_settled i (Fulfilled response) w) !! i = Some x' /\
    State.result (state x') = Response.data response /\
    State.statusCode (state x') = Response.status response /\
    State.headers (state x') = Response.headers response /\
    State.error (state x') = None /\
    State.status (state x') = Done /\
    State.overrideSafeResult (state x') = VUndefined /\
    safeResult x' = safeResultGetter x (Response.data response) /\
    log (runFetch_settled i (Fulfilled response) w) =
      log w ++ (if onSuccess x then [EvOnSuccess i] else [])
            ++ (if onFinish x then [EvOnFinish i] else [])
            ++ [EvResolved i response].
Proof.
  intros Hx.
  exists (settled_instance (Fulfilled response) (next_timer w) x).
  split; [by apply runFetch_settled_instance|].
  rewrite (runFetch_settled_log i _ w x Hx).
  unfold settled_instance. by destruct (0 <=? _).
Qed.

Lemma runFetch_settled_success_witness :
  exists x',
    instances (runFetch_settled 0 (Fulfilled ok) after_failure) !! 0%nat = Some x' /\
    State.result (state x') = Response.data ok /\
    State.statusCode (state x') = Response.status ok /\
    State.headers (state x') = Response.headers ok /\
    State.error (state x') = None /\
    State.status (state x') = Done /\
    State.overrideSafeResult (state x') = VUndefined /\
    safeResult x' = safeResultGetter failed_instance (Response.data ok) /\
    log (runFetch_settled 0 (Fulfilled ok) after_failure) =
      log after_failure ++ (if onSuccess failed_instance then [EvOnSuccess 0%nat] else [])
            ++ (if onFinish failed_instance then [EvOnFinish 0%nat] else [])
            ++ [EvResolved 0 ok].
Proof.
  apply (runFetch_settled_success 0 ok after_failure failed_instance).
  vm_compute. reflexivity.
Defined.

(** ** Scheduling the next poll *)

Lemma pollTiming_set_pollTimer (t : option nat) (x : instance) :
  pollTiming (set_pollTimer t x) = pollTiming x.
Proof. reflexivity. Qed.

Lemma runFetch_settled_timers (i : nat) (o : outcome) (w : world) (x : instance) :
  instances w !! i = Some x ->
  timers (runFetch_settled i o w) =
  timers w ++ (if 0 <=? pollTiming (on_outcome o x)
               then [mkTimer (next_timer w) i (pollTiming (on_outcome o x))]
               else []).
Proof.
  intros Hx. unfold runFetch_settled. rewrite Hx.
  destruct (0 <=? pollTiming (on_outcome o x)), (onFinish x), o; simpl;
    by rewrite ?app_nil_r.
Qed.

(** X4: however the run ends (response, error or cancellation), the poll
    setting is evaluated on the instance as the run leaves it; when the
    timing is not negative, one timer with that delay is added for the
    instance and [pollTimer] holds its handle; when it is negative, no timer
    is added and [pollTimer] is left as it was. *)
Theorem runFetch_settled_schedules
    (i : nat) (o : outcome) (w : world) (x : instance) :
  instances w !! i = Some x ->
  exists x',
    instances (runFetch_settled i o w) !! i = Some x' /\
    (0 <= pollTiming x' ->
       timers (runFetch_settled i o w)
         = timers w ++ [mkTimer (next_timer w) i (pollTiming x')] /\
       pollTimer x' = Some (next_timer w)) /\
    (pollTiming x' < 0 ->
       timers (runFetch_settled i o w) = timers w /\
       pollTimer x' = pollTimer x).
Proof.
  intros Hx. exists (settled_instance o (next_timer w) x).
  split; [by apply runFetch_settled_instance|].
  rewrite (runFetch_settled_timers i o w x Hx).
  unfold settled_instance.
  destruct (0 <=? pollTiming (on_outcome o x)) eqn:Ht.
  - rewrite pollTiming_set_pollTimer. split; [done|].
    apply Z.leb_le in Ht. lia.
  - apply Z.leb_gt in Ht. split; [lia|]. intros _. rewrite app_nil_r.
    split; [done|]. destruct o as [r|e]; simpl; [done|].
    by destruct (negb (isCancel e)).
Qed.

Lemma runFetch_settled_schedules_witness :
  exists x',
    instances (runFetch_settled 0 (RejectedWith boom) polling_done) !! 0%nat = Some x' /\
    (0 <= pollTiming x' ->
       timers (runFetch_settled 0 (RejectedWith boom) polling_done)
         = timers polling_done ++ [mkTimer (next_timer polling_done) 0 (pollTiming x')] /\
       pollTimer x' = Some (next_timer polling_done)) /\
    (pollTiming x' < 0 ->
       timers (runFetch_settled 0 (RejectedWith boom) polling_done) = timers polling_done /\
       pollTimer x' = pollTimer polling_instance).
Proof.
  apply (runFetch_settled_schedules 0 (RejectedWith boom) polling_done polling_instance).
  vm_compute. reflexivity.
Defined.

Lemma stopPoll_instance (i : nat) (w : world) (x : instance) :
  instances w !! i = Some x ->
  instances (Handle.stopPoll i w) !! i = Some (set_pollTimer None x).
Proof.
  intros Hx. unfold Handle.stopPoll. rewrite Hx.
  destruct (pollTimer x) as [t|] eqn:Ht.
  - by apply lookup_upd_Some.
  - rewrite Hx. by destruct x; simpl in *; subst.
Qed.

(** X5: [stopPoll()] clears the timer whose handle [pollTimer] holds and
    sets [pollTimer] to null, but it leaves the poll setting: on an instance
    that polls every [ms] milliseconds, a run that ends after [stopPoll()]
    schedules the next run again. *)
Theorem stopPoll_then_settled_reschedules
    (i : nat) (ms : Z) (o : outcome) (w : world) (x : instance) :
  instances w !! i = Some x ->
  poll x = PollMs ms ->
  0 <= ms ->
  (exists x1,
     instances (Handle.stopPoll i w) !! i = Some x1 /\
     pollTimer x1 = None /\ poll x1 = PollMs ms) /\
  (forall t, pollTimer x = Some t ->
     timers (Handle.stopPoll i w) = filter (fun tm => timer_id tm ≠ t) (timers w)) /\
  timers (runFetch_settled i o (Handle.stopPoll i w))
    = timers (Handle.stopPoll i w) ++ [mkTimer (next_timer (Handle.stopPoll i w)) i ms].
Proof.
  intros Hx Hp Hms. split; [|split].
  - exists (set_pollTimer None x). split; [by apply stopPoll_instance|]. done.
  - intros t Ht. unfold Handle.stopPoll. by rewrite Hx, Ht.
  - rewrite (runFetch_settled_timers i o _ _ (stopPoll_instance i w x Hx)).
    assert (Ht : pollTiming (on_outcome o (set_pollTimer None x)) = ms).
    { unfold pollTiming. destruct o as [r|e]; simpl; [by rewrite Hp|].
      destruct (negb (isCancel e)); simpl; by rewrite Hp. }
    rewrite Ht. by destruct (Z.leb_spec 0 ms); [|lia].
Qed.

Lemma stopPoll_then_settled_reschedules_witness :
  (exists x1,
     instances (Handle.stopPoll 0 polling_done) !! 0%nat = Some x1 /\
     pollTimer x1 = None /\ poll x1 = PollMs 1000) /\
  (forall t, pollTimer polling_instance = Some t ->
     timers (Handle.stopPoll 0 polling_done)
       = filter (fun tm => timer_id tm ≠ t) (timers polling_done)) /\
  timers (runFetch_settled 0 (Fulfilled ok) (Handle.stopPoll 0 polling_done))
    = timers (Handle.stopPoll 0 polling_done)
      ++ [mkTimer (next_timer (Handle.stopPoll 0 polling_done)) 0 1000].
Proof.
  apply (stopPoll_then_settled_reschedules 0 1000 (Fulfilled ok) polling_done
           polling_instance).
  - vm_compute. reflexivity.
  - reflexivity.
  - lia.
Defined.

(** The pending timer of [polling_done] is there before [stopPoll()] and
    gone after it. *)
Example stopPoll_clears_pending_timer :
  timers polling_done = [mkTimer 1 0 1000] /\
  timers (Handle.stopPoll 0 polling_done) = [].
Proof. split; vm_compute; reflexivity. Qed.

(** X6: [poll(timing)] only records the setting, and starts no run, when
    the instance is lazy, or is not Inactive, or holds a timer handle: the
    world is as after the assignment [poll = timing] alone. *)
Theorem poll_only_records (i : nat) (timing : poll_setting) (w : world) (x : instance) :
  instances w !! i = Some x ->
  lazy x = true \/ State.status (state x) <> Inactive \/ is_Some (pollTimer x) ->
  Handle.poll i timing w = upd i (set_poll timing) w.
Proof.
  intros Hx Hg. unfold Handle.poll.
  rewrite (lookup_upd_Some i _ w x Hx).
  change (lazy (set_poll timing x)) with (lazy x).
  change (State.status (state (set_poll timing x))) with (State.status (state x)).
  change (pollTimer (set_poll timing x)) with (pollTimer x).
  destruct Hg as [Hl | [Hs | Ht]].
  - by rewrite Hl.
  - destruct (State.status (state x)); [done| |];
      by rewrite ?andb_false_r, ?andb_false_l.
  - rewrite (bool_decide_eq_true_2 _ Ht). simpl.
    by rewrite ?andb_false_r, ?andb_false_l.
Qed.

Lemma poll_only_records_witness :
  Handle.poll 0 (PollMs 500) polling_done = upd 0 (set_poll (PollMs 500)) polling_done.
Proof.
  apply (poll_only_records 0 (PollMs 500) polling_done polling_instance).
  - vm_compute. reflexivity.
  - right. left. discriminate.
Defined.

(** ** Creation *)

Lemma createFetch_unfold (init : string + options) (w : world) :
  createFetch init w =
  let x := new_instance (options_of init) in
  let w1 := set_instances (instances w ++ [x]) w in
  if negb (lazy x) && hasUrl (currentConfig x)
  then runFetch (length (instances w)) (currentConfig x) w1
  else upd (length (instances w)) (with_state (set_status Inactive)) w1.
Proof. by destruct init. Qed.

Lemma hasUrl_url (url : string) :
  blank url = false -> hasUrl [("url", VStr url)] = true.
Proof.
  intros Hb. unfold hasUrl. simpl. by rewrite trim_length, Hb.
Qed.

Lemma createFetch_url (url : string) (w : world) :
  blank url = false ->
  createFetch (inl url) w =
  runFetch (length (instances w)) [("url", VStr url)]
    (set_instances (instances w ++ [new_instance (default_options [("url", VStr url)])]) w).
Proof.
  intros Hb. rewrite createFetch_unfold. cbv zeta.
  change (lazy _) with false.
  change (currentConfig _) with [("url", VStr url)].
  by rewrite hasUrl_url.
Qed.

(** X7: two instances created one after the other for the same url (not
    blank) share one transport call: creating the second issues no call, and
    both await the same promise. *)
Theorem createFetch_twice_shares (url : string) (w : world) :
  blank url = false ->
  exists p,
    calls (createFetch (inl url) (createFetch (inl url) w))
      = calls (createFetch (inl url) w) /\
    waiters (createFetch (inl url) (createFetch (inl url) w))
      = waiters w ++ [(length (instances w), p); (S (length (instances w)), p)].
Proof.
  intros Hb.
  pose proof (hasUrl_url url Hb) as Hurl.
  rewrite (createFetch_url url (createFetch (inl url) w) Hb).
  rewrite (createFetch_url url w Hb).
  set (c := [("url", VStr url)]).
  set (x := new_instance (default_options c)).
  set (w0 := set_instances (instances w ++ [x]) w).
  destruct (runFetch_registers (length (instances w)) c w0 Hurl) as (p & Hp & Hw).
  set (w1 := runFetch (length (instances w)) c w0) in *.
  assert (Hlen : length (instances w1) = S (length (instances w))).
  { destruct (pendingRequests w0 !! getRequestKey c) as [q|] eqn:Hq; subst w1.
    - rewrite (runFetch_attach _ _ _ q) by done. simpl.
      rewrite !length_alter, length_app. simpl. lia.
    - rewrite runFetch_create by done. simpl.
      rewrite !length_alter, length_app. simpl. lia. }
  exists p.
  destruct (runFetch_attach_calls (length (instances w1)) c
              (set_instances (instances w1 ++ [x]) w1) p Hurl Hp) as [Hc Hws].
  split; [done|].
  rewrite Hws. simpl. rewrite Hw, Hlen, <- app_assoc. done.
Qed.

Lemma createFetch_twice_shares_witness :
  exists p,
    calls (createFetch (inl "/users") (createFetch (inl "/users") empty_world))
      = calls (createFetch (inl "/users") empty_world) /\
    waiters (createFetch (inl "/users") (createFetch (inl "/users") empty_world))
      = waiters empty_world
        ++ [(length (instances empty_world), p); (S (length (instances empty_world)), p)].
Proof. apply (createFetch_twice_shares "/users" empty_world). reflexivity. Defined.

(** ** [fulfill], [start], [resume], [clear] *)

(** X8: after [fulfill(url)] on an instance that is not Loading, [start()]
    runs with the new config [{url}]: the instance is Loading with the key
    of the new url, which is registered for the promise the run awaits, and
    when that key was not registered the transport is called with
    [{url}]. *)
Theorem fulfill_then_start (i : nat) (url : string) (w : world) (x : instance) :
  instances w !! i = Some x ->
  State.status (state x) <> Loading ->
  blank url = false ->
  exists x' p,
    instances (Handle.start i (Handle.fulfill i (inl url) w)) !! i = Some x' /\
    State.status (state x') = Loading /\
    currentKey x' = Some (getRequestKey [("url", VStr url)]) /\
    pendingRequests (Handle.start i (Handle.fulfill i (inl url) w))
      !! getRequestKey [("url", VStr url)] = Some p /\
    waiters (Handle.start i (Handle.fulfill i (inl url) w)) = waiters w ++ [(i, p)] /\
    (pendingRequests w !! getRequestKey [("url", VStr url)] = None ->
     calls (Handle.start i (Handle.fulfill i (inl url) w))
       = calls w ++ [mkCall [("url", VStr url)] i false None]).
Proof.
  intros Hx Hst Hb.
  pose proof (hasUrl_url url Hb) as Hurl.
  set (c := [("url", VStr url)]) in *.
  set (w1 := Handle.fulfill i (inl url) w).
  assert (Hx1 : instances w1 !! i = Some (set_currentConfig c x)).
  { by apply lookup_upd_Some. }
  assert (Hstart : Handle.start i w1 = runFetch i c w1).
  { unfold Handle.start. rewrite Hx1. simpl.
    by destruct (State.status (state x)). }
  rewrite Hstart.
  destruct (runFetch_instance i c w1 _ Hurl Hx1) as (x' & Hx' & Hs & _ & _ & _ & _ & _ & Hk).
  destruct (runFetch_registers i c w1 Hurl) as (p & Hp & Hw).
  exists x', p. repeat split; try done.
  intros Hnone. by rewrite runFetch_create.
Qed.

Lemma fulfill_then_start_witness :
  exists x' p,
    instances (Handle.start 0 (Handle.fulfill 0 (inl "/b") idle_a)) !! 0%nat = Some x' /\
    State.status (state x') = Loading /\
    currentKey x' = Some (getRequestKey [("url", VStr "/b")]) /\
    pendingRequests (Handle.start 0 (Handle.fulfill 0 (inl "/b") idle_a))
      !! getRequestKey [("url", VStr "/b")] = Some p /\
    waiters (Handle.start 0 (Handle.fulfill 0 (inl "/b") idle_a)) = waiters idle_a ++ [(0%nat, p)] /\
    (pendingRequests idle_a !! getRequestKey [("url", VStr "/b")] = None ->
     calls (Handle.start 0 (Handle.fulfill 0 (inl "/b") idle_a))
       = calls idle_a ++ [mkCall [("url", VStr "/b")] 0 false None]).
Proof.
  apply (fulfill_then_start 0 "/b" idle_a idle_instance).
  - vm_compute. reflexivity.
  - discriminate.
  - reflexivity.
Defined.

(** X9: on an instance whose current config has a url, a second [start()]
    directly after the first does nothing, and so does a second
    [resume()]: overlapping calls of the same method start one run. *)
Theorem start_twice (i : nat) (w : world) (x : instance) :
  instances w !! i = Some x ->
  hasUrl (currentConfig x) = true ->
  Handle.start i (Handle.start i w) = Handle.start i w /\
  Handle.resume i (Handle.resume i w) = Handle.resume i w.
Proof.
  intros Hx Hurl.
  destruct (runFetch_instance i _ w x Hurl Hx) as (x1 & Hx1 & Hs1 & _).
  split.
  - unfold Handle.start at 2 3. rewrite Hx.
    destruct (State.status (state x)) eqn:Hs; simpl;
      unfold Handle.start; rewrite ?Hx1, ?Hs1, ?Hx, ?Hs; done.
  - unfold Handle.resume at 2 3. rewrite Hx.
    destruct (State.status (state x)) eqn:Hs; simpl;
      unfold Handle.resume; rewrite ?Hx1, ?Hs1, ?Hx, ?Hs; done.
Qed.

Lemma start_twice_witness :
  Handle.start 0 (Handle.start 0 idle_a) = Handle.start 0 idle_a /\
  Handle.resume 0 (Handle.resume 0 idle_a) = Handle.resume 0 idle_a.
Proof.
  apply (start_twice 0 idle_a idle_instance).
  - vm_compute. reflexivity.
  - reflexivity.
Defined.

(** X10: [clear()] sets [result] to null and drops the override, so the
    safe result becomes [safeResultGetter(null)]; it leaves [status],
    [error], [statusCode] and [headers] as they were, and it does not touch
    the registry, the calls, the suspended runs or the timers: a run in
    progress goes on. *)
Theorem clear_effect (i : nat) (w : world) (x : instance) :
  instances w !! i = Some x ->
  exists x',
    instances (Handle.clear i w) !! i = Some x' /\
    State.result (state x') = VNull /\
    safeResult x' = safeResultGetter x VNull /\
    State.status (state x') = State.status (state x) /\
    State.error (state x') = State.error (state x) /\
    State.statusCode (state x') = State.statusCode (state x) /\
    State.headers (state x') = State.headers (state x) /\
    pendingRequests (Handle.clear i w) = pendingRequests w /\
    calls (Handle.clear i w) = calls w /\
    waiters (Handle.clear i w) = waiters w /\
    timers (Handle.clear i w) = timers w.
Proof.
  intros Hx. eexists. split; [by apply lookup_upd_Some|]. done.
Qed.

Lemma clear_effect_witness :
  exists x',
    instances (Handle.clear 0 polling_done) !! 0%nat = Some x' /\
    State.result (state x') = VNull /\
    safeResult x' = safeResultGetter polling_instance VNull /\
    State.status (state x') = State.status (state polling_instance) /\
    State.error (state x') = State.error (state polling_instance) /\
    State.statusCode (state x') = State.statusCode (state polling_instance) /\
    State.headers (state x') = State.headers (state polling_instance) /\
    pendingRequests (Handle.clear 0 polling_done) = pendingRequests polling_done /\
    calls (Handle.clear 0 polling_done) = calls polling_done /\
    waiters (Handle.clear 0 polling_done) = waiters polling_done /\
    timers (Handle.clear 0 polling_done) = timers polling_done.
Proof.
  apply (clear_effect 0 polling_done polling_instance). vm_compute. reflexivity.
Defined.

(** ** A call that is cancelled *)

Lemma calls_runFetch_settled (j : nat) (o : outcome) (w : world) :
  calls (runFetch_settled j o w) = calls w.
Proof.
  unfold runFetch_settled. destruct (instances w !! j) as [x|]; [|done].
  by destruct (0 <=? _), (onFinish x), o.
Qed.

Lemma resume_all_cancelled (j : nat) (rs : list (nat * nat)) (w : world) (x : instance) :
  (forall q, (j, q) ∈ rs -> outcome_of q w = Some (RejectedWith CanceledError)) ->
  instances w !! j = Some x ->
  exists x', instances (resume_all rs w) !! j = Some x' /\ state x' = state x.
Proof.
  revert w x. induction rs as [|[k q] rs IH]; intros w x Hrs Hx; simpl; [by exists x|].
  destruct (outcome_of q w) as [o|] eqn:Ho.
  - assert (Hout : forall q', outcome_of q' (runFetch_settled k o w) = outcome_of q' w).
    { intros q'. unfold outcome_of. by rewrite calls_runFetch_settled. }
    destruct (decide (k = j)) as [->|Hne].
    + assert (o = RejectedWith CanceledError) as ->.
      { specialize (Hrs q ltac:(left)). congruence. }
      destruct (runFetch_settled_cancel j w x Hx) as (x1 & Hx1 & Hs1 & _).
      destruct (IH (runFetch_settled j (RejectedWith CanceledError) w) x1)
        as (x' & Hx' & Hs'); [|done|].
      * intros q' Hq'. rewrite Hout. apply Hrs. by right.
      * exists x'. split; [done|]. congruence.
    + apply IH.
      * intros q' Hq'. rewrite Hout. apply Hrs. by right.
      * by rewrite runFetch_settled_other.
  - apply IH; [|done]. intros q' Hq'. apply Hrs. by right.
Qed.

(** X11: when the transport rejects a call with the cancellation, an
    instance all of whose suspended runs await that call keeps its whole
    state: no error is recorded and the status is not set to Done, so an
    instance that did not call [stop()] itself stays Loading. *)
Theorem settle_cancelled_keeps_state
    (p j : nat) (w : world) (c : call) (x : instance) :
  calls w !! p = Some c ->
  call_outcome c = None ->
  (forall q, (j, q) ∈ waiters w -> q = p) ->
  instances w !! j = Some x ->
  exists x',
    instances (settle p (RejectedWith CanceledError) w) !! j = Some x' /\
    state x' = state x.
Proof.
  intros Hc Ho Hwait Hx. unfold settle. rewrite Hc, Ho. unfold drain.
  set (w1 := finally_callback _ _).
  assert (Hi : instances w1 = instances w).
  { subst w1. unfold finally_callback. simpl.
    destruct (instances w !! call_owner c) as [y|]; [|done]. by destruct (currentKey y). }
  assert (Hw : waiters w1 = waiters w).
  { subst w1. unfold finally_callback. simpl.
    destruct (instances w !! call_owner c) as [y|]; [|done]. by destruct (currentKey y). }
  assert (Hp : outcome_of p w1 = Some (RejectedWith CanceledError)).
  { subst w1. unfold outcome_of, finally_callback. simpl.
    assert (Hl : <[p:=mkCall (call_config c) (call_owner c) (call_aborted c)
                       (Some (RejectedWith CanceledError))]> (calls w) !! p
                 = Some (mkCall (call_config c) (call_owner c) (call_aborted c)
                       (Some (RejectedWith CanceledError)))).
    { apply list_lookup_insert_eq. by eapply lookup_lt_Some. }
    destruct (instances w !! call_owner c) as [y|]; [destruct (currentKey y)|];
      simpl; by rewrite Hl. }
  apply resume_all_cancelled.
  - intros q Hq. rewrite Hw in Hq. rewrite (Hwait q Hq).
    unfold outcome_of in *. simpl. done.
  - simpl. by rewrite Hi.
Qed.

Lemma settle_cancelled_keeps_state_witness :
  exists x',
    instances (settle 0 (RejectedWith CanceledError) two_on_a) !! 1%nat = Some x' /\
    state x' = state attached_instance.
Proof.
  apply (settle_cancelled_keeps_state 0 1 two_on_a first_call attached_instance).
  - vm_compute. reflexivity.
  - reflexivity.
  - intros q Hq. vm_compute in Hq.
    apply list_elem_of_In in Hq. simpl in Hq.
    destruct Hq as [Hq | [Hq | []]]; congruence.
  - vm_compute. reflexivity.
Defined.

(** ** Induction over the turns

    A property of the world holds after every sequence of turns when the
    building blocks of the turns keep it.  [R] tells which instances may
    start or finish a run; [ok] tells which turns are taken. *)
Section Turns.
Context (P : world -> Prop) (R : nat -> Prop) (ok : label -> Prop).

Hypothesis ok_start : forall j, ok (Start j) -> R j.
Hypothesis ok_resume : forall j, ok (Resume j) -> R j.
Hypothesis P_waiter : forall j q w, P w -> (j, q) ∈ waiters w -> R j.
Hypothesis P_timer : forall tm w, P w -> tm ∈ timers w -> R (timer_inst tm).
Hypothesis P_polled :
  forall j x w, P w -> instances w !! j = Some x -> lazy x = false -> R j.
Hypothesis P_fresh : forall w, P w -> R (length (instances w)).
Hypothesis P_runFetch : forall j c w, R j -> P w -> P (runFetch j c w).
Hypothesis P_settled : forall j o w, R j -> P w -> P (runFetch_settled j o w).
Hypothesis P_push : forall o w, P w -> P (push (new_instance o) w).
Hypothesis P_override : forall j v w, P w -> P (Handle.overrideSafeResult j v w).
Hypothesis P_clear : forall j w, P w -> P (Handle.clear j w).
Hypothesis P_set_poll : forall j t w, P w -> P (upd j (set_poll t) w).
Hypothesis P_stopPoll : forall j w, P w -> P (Handle.stopPoll j w).
Hypothesis P_stop : forall j w, P w -> P (Handle.stop j w).
Hypothesis P_fulfill : forall j c w, P w -> P (Handle.fulfill j c w).
Hypothesis P_filter :
  forall f w, P w -> P (set_waiters (List.filter f (waiters w)) w).
Hypothesis P_clearTimeout : forall t w, P w -> P (clearTimeout t w).
Hypothesis P_mark :
  forall p c o w,
    P w -> calls w !! p = Some c -> call_outcome c = None ->
    P (finally_callback (call_owner c) (mark_settled p c o w)).

Lemma turns_resume_all (rs : list (nat * nat)) (w : world) :
  (forall j q, (j, q) ∈ rs -> R j) -> P w -> P (resume_all rs w).
Proof.
  revert w. induction rs as [|[j q] rs IH]; intros w Hrs Hw; simpl; [done|].
  apply IH.
  - intros j' q' Hin. apply (Hrs j' q'). by right.
  - destruct (outcome_of q w); [|done].
    apply P_settled; [|done]. apply (Hrs j q). by left.
Qed.

Lemma turns_drain (w : world) : P w -> P (drain w).
Proof.
  intros Hw. unfold drain. apply turns_resume_all.
  - intros j q Hin. by apply (P_waiter j q w).
  - by apply P_filter.
Qed.

Lemma push_inactive (x : instance) (w : world) :
  State.status (state x) = Inactive ->
  upd (length (instances w)) (with_state (set_status Inactive)) (push x w) = push x w.
Proof.
  intros Hs. unfold upd, push, set_instances. simpl.
  assert (Hx : with_state (set_status Inactive) x = x).
  { destruct x as [[] ]. simpl in *. by subst. }
  assert (Ha : alter (with_state (set_status Inactive)) (length (instances w))
                 (instances w ++ [x]) = instances w ++ [x]).
  { rewrite <- (Nat.add_0_r (length (instances w))), alter_app_r. simpl.
    by rewrite Hx. }
  by rewrite Ha.
Qed.

Lemma turns_createFetch (init : string + options) (w : world) :
  P w -> P (createFetch init w).
Proof.
  intros Hw. rewrite createFetch_unfold. cbv zeta.
  fold (push (new_instance (options_of init)) w).
  destruct (negb _ && hasUrl _).
  - apply P_runFetch; [by apply P_fresh | by apply P_push].
  - rewrite push_inactive by done. by apply P_push.
Qed.

Lemma turns_step (l : label) (w : world) : ok l -> P w -> P (step l w).
Proof.
  intros Hl Hw. destruct l as [init|j|j|j|j|j u|j|j timing|j|j c|p o|t|];
    unfold step.
  - by apply turns_createFetch.
  - unfold Handle.start. destruct (instances w !! j) as [x|]; [|done].
    destruct (negb _); [|done]. apply P_runFetch; [by apply ok_start | done].
  - unfold Handle.resume. destruct (instances w !! j) as [x|]; [|done].
    destruct (FetchStatus_eqb _ _); [|done].
    apply P_runFetch; [by apply ok_resume | done].
  - by apply P_stop.
  - by apply P_clear.
  - by apply P_override.
  - by apply (P_override j VUndefined).
  - unfold Handle.poll.
    pose proof (P_set_poll j timing w Hw) as Hw1.
    destruct (instances (upd j (set_poll timing) w) !! j) as [x|] eqn:Hx; [|done].
    destruct (lazy x) eqn:Hlazy; simpl; [done|].
    destruct (_ && _); [|done].
    apply P_runFetch; [|done]. by apply (P_polled j x _ Hw1 Hx).
  - by apply P_stopPoll.
  - by apply P_fulfill.
  - unfold settle. destruct (calls w !! p) as [c|] eqn:Hc; [|done].
    destruct (call_outcome c) eqn:Ho; [done|].
    apply turns_drain. by apply (P_mark p c o w).
  - unfold fire. destruct (List.find _ (timers w)) as [tm|] eqn:Hf; [|done].
    pose proof (P_clearTimeout t w Hw) as Hw1.
    destruct (instances (clearTimeout t w) !! timer_inst tm) as [x|]; [|done].
    apply P_runFetch; [|done].
    apply (P_timer tm w Hw). apply list_elem_of_In.
    by apply (find_some _ _ Hf).
  - by apply turns_drain.
Qed.

Lemma turns_exec (ls : list label) (w : world) :
  Forall ok ls -> P w -> P (exec ls w).
Proof.
  revert w. induction ls as [|l ls IH]; intros w Hls Hw; simpl; [done|].
  apply Forall_cons in Hls as [Hl Hls].
  apply IH; [done|]. by apply turns_step.
Qed.
End Turns.

(** ** Once started, never Inactive again *)

Section Active.
Context (i : nat).

Lemma active_frame (w w' : world) :
  instances w' = instances w -> active i w -> active i w'.
Proof. intros Hi (x & Hx & Hs). exists x. by rewrite Hi. Qed.

Lemma active_upd (j : nat) (f : instance -> instance) (w : world) :
  (forall x, State.status (state x) <> Inactive -> State.status (state (f x)) <> Inactive) ->
  active i w -> active i (upd j f w).
Proof.
  intros Hf (x & Hx & Hs). destruct (decide (j = i)) as [->|Hne].
  - exists (f x). split; [by apply lookup_upd_Some | by apply Hf].
  - exists x. by rewrite lookup_upd_ne.
Qed.

Lemma active_runFetch (j : nat) (c : config) (w : world) :
  active i w -> active i (runFetch j c w).
Proof.
  intros Hw. unfold runFetch. destruct (hasUrl c); simpl; [|done].
  destruct (pendingRequests w !! getRequestKey c); simpl;
    (eapply active_frame; [reflexivity|]);
    repeat (first [ apply active_upd; [by intros [[]] | ]
                  | eapply active_frame; [reflexivity|] ]); done.
Qed.

Lemma active_runFetch_settled (j : nat) (o : outcome) (w : world) :
  active i w -> active i (runFetch_settled j o w).
Proof.
  intros (x & Hx & Hs). destruct (decide (j = i)) as [->|Hne].
  - eexists. split; [by apply runFetch_settled_instance|].
    unfold settled_instance, on_outcome.
    destruct o as [r|e]; [|destruct (negb (isCancel e))]; by destruct (0 <=? _).
  - exists x. by rewrite runFetch_settled_other.
Qed.

Lemma active_stopPoll (j : nat) (w : world) : active i w -> active i (Handle.stopPoll j w).
Proof.
  intros Hw. unfold Handle.stopPoll. destruct (instances w !! j) as [y|]; [|done].
  destruct (pollTimer y); [|done]. apply active_upd; [done|].
  by eapply active_frame; [reflexivity|].
Qed.

Lemma active_stop (j : nat) (w : world) : active i w -> active i (Handle.stop j w).
Proof.
  intros Hw. unfold Handle.stop. destruct (instances w !! j) as [y|]; [|done].
  destruct (controller y); [|done]. destruct (FetchStatus_eqb _ _); [|done].
  apply active_upd; [done|]. by eapply active_frame; [reflexivity|].
Qed.

Lemma active_exec (ls : list label) (w : world) : active i w -> active i (exec ls w).
Proof.
  apply (turns_exec (active i) (fun _ => True) (fun _ => True)); try done.
  - intros j c w' _. apply active_runFetch.
  - intros j o w' _. apply active_runFetch_settled.
  - intros o w' (x & Hx & Hs). exists x. split; [|done].
    unfold push. simpl. rewrite lookup_app_l; [done|]. by eapply lookup_lt_Some.
  - intros j v w'. by apply active_upd.
  - intros j w'. by apply active_upd.
  - intros j t w'. by apply active_upd.
  - intros j w'. apply active_stopPoll.
  - intros j w'. apply active_stop.
  - intros j c w'. by apply active_upd.
  - intros p c o w' Hw' _ _. eapply active_frame; [|done].
    unfold finally_callback, mark_settled. simpl.
    destruct (instances w' !! call_owner c) as [y|]; [|done]. by destruct (currentKey y).
  - by apply Forall_true.
Qed.
End Active.

(** X12: an instance that has left the Inactive status (a run has started
    on it) is never Inactive again, whatever turns follow; so [resume()]
    does nothing on it from then on. *)
Theorem never_inactive_again (i : nat) (w : world) (x : instance) (ls : list label) :
  instances w !! i = Some x ->
  State.status (state x) <> Inactive ->
  (exists x', instances (exec ls w) !! i = Some x' /\ State.status (state x') <> Inactive) /\
  Handle.resume i (exec ls w) = exec ls w.
Proof.
  intros Hx Hs.
  assert (Ha : active i (exec ls w)) by (apply active_exec; by exists x).
  split; [done|]. destruct Ha as (x' & Hx' & Hs').
  unfold Handle.resume. rewrite Hx'. by destruct (State.status (state x')).
Qed.

Lemma never_inactive_again_witness :
  (exists x',
     instances (exec [Stop 0; Clear 0; Settle 0 (RejectedWith CanceledError);
                      Create lazy_a; Fulfill 0 (inl "/b")] loading_a) !! 0%nat = Some x' /\
     State.status (state x') <> Inactive) /\
  Handle.resume 0
    (exec [Stop 0; Clear 0; Settle 0 (RejectedWith CanceledError);
           Create lazy_a; Fulfill 0 (inl "/b")] loading_a)
  = exec [Stop 0; Clear 0; Settle 0 (RejectedWith CanceledError);
          Create lazy_a; Fulfill 0 (inl "/b")] loading_a.
Proof.
  apply (never_inactive_again 0 loading_a loading_instance).
  - vm_compute. reflexivity.
  - discriminate.
Defined.

(** ** The registry never crosses keys *)

Lemma registry_sound_frame (w w' : world) :
  pendingRequests w' = pendingRequests w -> calls w' = calls w ->
  registry_sound w -> registry_sound w'.
Proof. intros Hp Hc H k p. rewrite Hp, Hc. apply H. Qed.

Lemma registry_sound_runFetch (j : nat) (c : config) (w : world) :
  registry_sound w -> registry_sound (runFetch j c w).
Proof.
  intros Hw. unfold runFetch. destruct (hasUrl c); simpl; [|done].
  destruct (pendingRequests w !! getRequestKey c) as [q|] eqn:Hq; simpl; [done|].
  intros k p. simpl.
  destruct (decide (getRequestKey c = k)) as [<-|Hne].
  - rewrite lookup_insert_eq. intros [= <-].
    exists (mkCall c j false None). split; [|done].
    by rewrite lookup_app_r, Nat.sub_diag.
  - rewrite lookup_insert_ne by done. intros Hk.
    destruct (Hw k p Hk) as (cl & Hcl & Hkey).
    exists cl. split; [|done]. rewrite lookup_app_l; [done|]. by eapply lookup_lt_Some.
Qed.

Lemma registry_sound_mark (p : nat) (c : call) (o : outcome) (w : world) :
  registry_sound w -> calls w !! p = Some c ->
  registry_sound (finally_callback (call_owner c) (mark_settled p c o w)).
Proof.
  intros Hw Hc.
  assert (Hm : registry_sound (mark_settled p c o w)).
  { intros k q Hk. simpl in Hk. destruct (Hw k q Hk) as (cl & Hcl & Hkey).
    unfold mark_settled. simpl. destruct (decide (p = q)) as [->|Hne].
    - eexists. split; [apply list_lookup_insert_eq; by eapply lookup_lt_Some|].
      simpl. congruence.
    - exists cl. by rewrite list_lookup_insert_ne. }
  unfold finally_callback.
  destruct (instances _ !! call_owner c) as [y|]; [|done].
  destruct (currentKey y) as [k'|]; [|done].
  intros k q. simpl. intros Hk. apply lookup_delete_Some in Hk as [_ Hk].
  by apply Hm.
Qed.

Lemma registry_sound_stop (j : nat) (w : world) :
  registry_sound w -> registry_sound (Handle.stop j w).
Proof.
  intros Hw. unfold Handle.stop. destruct (instances w !! j) as [y|]; [|done].
  destruct (controller y) as [c|]; [|done]. destruct (FetchStatus_eqb _ _); [|done].
  intros k p Hk. simpl in Hk. destruct (Hw k p Hk) as (cl & Hcl & Hkey). simpl.
  destruct (decide (c = p)) as [->|Hne].
  - rewrite list_lookup_alter_eq, Hcl. simpl. eexists. split; [done|]. done.
  - rewrite list_lookup_alter_ne by done. by exists cl.
Qed.

Lemma registry_sound_exec (ls : list label) (w : world) :
  registry_sound w -> registry_sound (exec ls w).
Proof.
  apply (turns_exec registry_sound (fun _ => True) (fun _ => True)); try done.
  - intros j c w' _. apply registry_sound_runFetch.
  - intros j o w' _. apply registry_sound_frame.
    + apply pendingRequests_runFetch_settled.
    + apply calls_runFetch_settled.
  - intros j w' Hw'. eapply registry_sound_frame; [| |done];
      unfold Handle.stopPoll; destruct (instances w' !! j) as [y|]; try done;
      by destruct (pollTimer y).
  - intros j w'. apply registry_sound_stop.
  - intros p c o w' Hw' Hc _. by apply registry_sound_mark.
  - by apply Forall_true.
Qed.

Lemma registry_sound_empty : registry_sound empty_world.
Proof.
  intros k p Hk. change ((∅ : gmap string nat) !! k = Some p) in Hk.
  by rewrite lookup_empty in Hk.
Qed.

(** X13: after any sequence of turns from the start of the program, a run
    awaits a call that was made with a config of the run's own key, whether
    the run made the call or found it in the registry: a run is never given
    the response of a request with another method, url, params or data
    text. *)
Theorem run_awaits_own_key (ls : list label) (i : nat) (c : config) :
  hasUrl c = true ->
  exists p cl,
    waiters (runFetch i c (exec ls empty_world))
      = waiters (exec ls empty_world) ++ [(i, p)] /\
    calls (runFetch i c (exec ls empty_world)) !! p = Some cl /\
    getRequestKey (call_config cl) = getRequestKey c.
Proof.
  intros Hurl.
  pose proof (registry_sound_exec ls _ registry_sound_empty) as Hw.
  pose proof (registry_sound_runFetch i c _ Hw) as Hw'.
  destruct (runFetch_registers i c (exec ls empty_world) Hurl) as (p & Hp & Hws).
  destruct (Hw' _ _ Hp) as (cl & Hcl & Hk).
  by exists p, cl.
Qed.

Lemma run_awaits_own_key_witness :
  exists p cl,
    waiters (runFetch 1 [("url", VStr "/a")] (exec restart_trace empty_world))
      = waiters (exec restart_trace empty_world) ++ [(1%nat, p)] /\
    calls (runFetch 1 [("url", VStr "/a")] (exec restart_trace empty_world)) !! p = Some cl /\
    getRequestKey (call_config cl) = getRequestKey [("url", VStr "/a")].
Proof. apply (run_awaits_own_key restart_trace 1 [("url", VStr "/a")]). reflexivity. Defined.

(** ** Controllers and the calls they guard *)

Lemma controllers_owned_upd (j : nat) (f : instance -> instance) (w : world) :
  (forall x, controller (f x) = controller x) ->
  controllers_owned w -> controllers_owned (upd j f w).
Proof.
  intros Hf Hw j' x' c. simpl. destruct (decide (j = j')) as [->|Hne].
  - rewrite list_lookup_alter_eq.
    destruct (instances w !! j') as [y|] eqn:Hy; [|done]. simpl.
    intros [= <-]. rewrite Hf. by apply Hw.
  - rewrite list_lookup_alter_ne by done. apply Hw.
Qed.

Lemma controllers_owned_frame (w w' : world) :
  instances w' = instances w -> calls w' = calls w ->
  controllers_owned w -> controllers_owned w'.
Proof. intros Hi Hc H j x c. rewrite Hi, Hc. apply H. Qed.

Lemma controllers_owned_runFetch (j : nat) (c : config) (w : world) :
  controllers_owned w -> controllers_owned (runFetch j c w).
Proof.
  intros Hw. unfold runFetch. destruct (hasUrl c); simpl; [|done].
  destruct (pendingRequests w !! getRequestKey c) as [q|] eqn:Hq; simpl.
  - eapply controllers_owned_frame; [reflexivity..|].
    by repeat (apply controllers_owned_upd; [done|]).
  - intros j' x' c'. simpl. destruct (decide (j = j')) as [->|Hne].
    + rewrite !list_lookup_alter_eq.
      destruct (instances w !! j') as [y|]; [|done]. simpl.
      intros [= <-]. simpl. intros [= <-].
      exists (mkCall c j' false None). by rewrite lookup_app_r, Nat.sub_diag.
    + rewrite !list_lookup_alter_ne by done. intros Hx' Hc'.
      destruct (Hw j' x' c' Hx' Hc') as (cl & Hcl & Ho).
      exists cl. split; [|done]. rewrite lookup_app_l; [done|]. by eapply lookup_lt_Some.
Qed.

Lemma controllers_owned_runFetch_settled (j : nat) (o : outcome) (w : world) :
  controllers_owned w -> controllers_owned (runFetch_settled j o w).
Proof.
  intros Hw j' x' c. rewrite calls_runFetch_settled.
  destruct (decide (j = j')) as [->|Hne].
  - destruct (instances w !! j') as [y|] eqn:Hy.
    + rewrite (runFetch_settled_instance j' o w y Hy). intros [= <-].
      assert (Hc : controller (settled_instance o (next_timer w) y) = controller y).
      { unfold settled_instance, on_outcome.
        destruct o as [r|e]; [|destruct (negb (isCancel e))]; by destruct (0 <=? _). }
      rewrite Hc. by apply Hw.
    + unfold runFetch_settled. rewrite Hy. apply Hw.
  - rewrite runFetch_settled_other by done. apply Hw.
Qed.

Lemma controllers_owned_calls (w : world) (cs : list call) :
  length cs = length (calls w) ->
  (forall p cl, calls w !! p = Some cl ->
     exists cl', cs !! p = Some cl' /\ call_owner cl' = call_owner cl) ->
  controllers_owned w -> controllers_owned (set_calls cs w).
Proof.
  intros _ Hcs Hw j x c Hx Hc. simpl in Hx.
  destruct (Hw j x c Hx Hc) as (cl & Hcl & Ho).
  destruct (Hcs c cl Hcl) as (cl' & Hcl' & Ho'). exists cl'. simpl. split; [done|congruence].
Qed.

Lemma controllers_owned_abort (c : nat) (w : world) :
  controllers_owned w -> controllers_owned (abort c w).
Proof.
  intros Hw. apply controllers_owned_calls; [by rewrite length_alter| |done].
  intros p cl Hcl. destruct (decide (c = p)) as [->|Hne].
  - rewrite list_lookup_alter_eq, Hcl. simpl. by eexists.
  - rewrite list_lookup_alter_ne by done. by exists cl.
Qed.

Lemma controllers_owned_mark (p : nat) (c : call) (o : outcome) (w : world) :
  controllers_owned w -> calls w !! p = Some c ->
  controllers_owned (finally_callback (call_owner c) (mark_settled p c o w)).
Proof.
  intros Hw Hc.
  assert (Hm : controllers_owned (mark_settled p c o w)).
  { apply controllers_owned_calls; [by rewrite length_insert| |done].
    intros q cl Hcl. destruct (decide (p = q)) as [->|Hne].
    - eexists. split; [apply list_lookup_insert_eq; by eapply lookup_lt_Some|].
      simpl. congruence.
    - exists cl. by rewrite list_lookup_insert_ne. }
  unfold finally_callback.
  destruct (instances _ !! call_owner c) as [y|]; [|done].
  by destruct (currentKey y).
Qed.

Lemma controllers_owned_exec (ls : list label) (w : world) :
  controllers_owned w -> controllers_owned (exec ls w).
Proof.
  apply (turns_exec controllers_owned (fun _ => True) (fun _ => True)); try done.
  - intros j c w' _. apply controllers_owned_runFetch.
  - intros j o w' _. apply controllers_owned_runFetch_settled.
  - intros o w' Hw' j x c. unfold push. simpl. intros Hx Hc.
    destruct (decide (j < length (instances w'))%nat) as [Hlt|Hge].
    + rewrite lookup_app_l in Hx by done. by apply (Hw' j x c).
    + rewrite lookup_app_r in Hx by lia.
      destruct (j - length (instances w'))%nat; simpl in Hx; [|done].
      injection Hx as <-. done.
  - intros j v w'. by apply controllers_owned_upd.
  - intros j w'. by apply controllers_owned_upd.
  - intros j t w'. by apply controllers_owned_upd.
  - intros j w' Hw'. unfold Handle.stopPoll.
    destruct (instances w' !! j) as [y|]; [|done]. destruct (pollTimer y); [|done].
    apply controllers_owned_upd; [done|].
    by eapply controllers_owned_frame; [reflexivity..|].
  - intros j w' Hw'. unfold Handle.stop.
    destruct (instances w' !! j) as [y|]; [|done]. destruct (controller y); [|done].
    destruct (FetchStatus_eqb _ _); [|done].
    apply controllers_owned_upd; [done|]. by apply controllers_owned_abort.
  - intros j c w'. by apply controllers_owned_upd.
  - intros p c o w' Hw' Hc _. by apply controllers_owned_mark.
  - by apply Forall_true.
Qed.

(** X14: after any sequence of turns from the start of the program,
    [stop()] on an instance leaves every transport call that another
    instance created exactly as it was: it aborts no call but one of its
    own. *)
Theorem stop_spares_other_calls (ls : list label) (i p : nat) (cl : call) :
  calls (exec ls empty_world) !! p = Some cl ->
  call_owner cl <> i ->
  calls (Handle.stop i (exec ls empty_world)) !! p = Some cl.
Proof.
  intros Hcl Ho.
  assert (Hw : controllers_owned (exec ls empty_world)).
  { apply controllers_owned_exec. intros j x c Hx. by destruct j. }
  unfold Handle.stop.
  destruct (instances (exec ls empty_world) !! i) as [x|] eqn:Hx; [|done].
  destruct (controller x) as [c|] eqn:Hc; [|done].
  destruct (FetchStatus_eqb _ _); [|done]. simpl.
  destruct (Hw i x c Hx Hc) as (cl' & Hcl' & Ho').
  rewrite list_lookup_alter_ne; [done|]. intros ->. congruence.
Qed.

Lemma stop_spares_other_calls_witness :
  calls (Handle.stop 1 (exec [Create (inl "/a"); Create (inl "/b")] empty_world)) !! 0%nat
  = Some first_call.
Proof.
  apply (stop_spares_other_calls [Create (inl "/a"); Create (inl "/b")] 1 0 first_call).
  - vm_compute. reflexivity.
  - discriminate.
Defined.

(** ** A lazy instance waits for [start()] or [resume()] *)

Lemma forallb_Forall {A : Type} (f : A -> bool) (P : A -> Prop) (l : list A) :
  (forall a, f a = true <-> P a) ->
  forallb f l = true <-> Forall P l.
Proof.
  intros Hf. induction l as [|a l IH]; simpl.
  - split; [by constructor | done].
  - rewrite andb_true_iff, Forall_cons, Hf, IH. done.
Qed.

Lemma neqb_iff (a b : nat) : negb (Nat.eqb a b) = true <-> a <> b.
Proof. rewrite negb_true_iff. apply Nat.eqb_neq. Qed.

Lemma untouched_iff (i : nat) (w : world) :
  untouched i w = true <->
  Forall (fun r => r.1 <> i) (waiters w) /\
  Forall (fun tm => timer_inst tm <> i) (timers w) /\
  Forall (fun c => call_owner c <> i) (calls w).
Proof.
  unfold untouched. rewrite !andb_true_iff.
  rewrite (forallb_Forall _ (fun r : nat * nat => r.1 <> i)) by (intros; apply neqb_iff).
  rewrite (forallb_Forall _ (fun tm => timer_inst tm <> i)) by (intros; apply neqb_iff).
  rewrite (forallb_Forall _ (fun c => call_owner c <> i)) by (intros; apply neqb_iff).
  tauto.
Qed.

Section NeverRan.
Context (i : nat).

Lemma never_ran_upd (j : nat) (f : instance -> instance) (w : world) :
  (j <> i \/ forall x, lazy (f x) = lazy x /\
                       State.status (state (f x)) = State.status (state x)) ->
  never_ran i w -> never_ran i (upd j f w).
Proof.
  intros Hf ((x & Hx & Hl & Hs) & Hrest). split; [|done].
  destruct (decide (j = i)) as [->|Hne].
  - destruct Hf as [Hf|Hf]; [done|]. exists (f x).
    split; [by apply lookup_upd_Some|]. destruct (Hf x) as [-> ->]. done.
  - exists x. by rewrite lookup_upd_ne.
Qed.

Lemma never_ran_runFetch (j : nat) (c : config) (w : world) :
  j <> i -> never_ran i w -> never_ran i (runFetch j c w).
Proof.
  intros Hne Hw. pose proof Hw as ((x & Hx & Hl & Hs) & Hws & Hts & Hcs).
  unfold runFetch. destruct (hasUrl c); simpl; [|exact Hw].
  destruct (pendingRequests w !! getRequestKey c) as [q|]; simpl.
  - split; [exists x; simpl; by rewrite !list_lookup_alter_ne|].
    split; [|done]. apply Forall_app. split; [done|]. by apply Forall_singleton.
  - split; [exists x; simpl; by rewrite !list_lookup_alter_ne|].
    split; [apply Forall_app; split; [done|]; by apply Forall_singleton|].
    split; [done|]. apply Forall_app. split; [done|]. by apply Forall_singleton.
Qed.

Lemma waiters_runFetch_settled (j : nat) (o : outcome) (w : world) :
  waiters (runFetch_settled j o w) = waiters w.
Proof.
  unfold runFetch_settled. destruct (instances w !! j) as [x|]; [|done].
  by destruct (0 <=? _), (onFinish x), o.
Qed.

Lemma never_ran_runFetch_settled (j : nat) (o : outcome) (w : world) :
  j <> i -> never_ran i w -> never_ran i (runFetch_settled j o w).
Proof.
  intros Hne ((x & Hx & Hl & Hs) & Hws & Hts & Hcs).
  split; [exists x; by rewrite runFetch_settled_other|].
  rewrite waiters_runFetch_settled, calls_runFetch_settled.
  split; [done|]. split; [|done].
  destruct (instances w !! j) as [y|] eqn:Hy.
  - rewrite (runFetch_settled_timers j o w y Hy).
    apply Forall_app. split; [done|].
    destruct (0 <=? _); [by apply Forall_singleton | by constructor].
  - unfold runFetch_settled. by rewrite Hy.
Qed.

Lemma never_ran_timers (ts : list timer) (n : nat) (w : world) :
  (forall tm, tm ∈ ts -> tm ∈ timers w) ->
  never_ran i w -> never_ran i (set_timers ts n w).
Proof.
  intros Hsub (Hx & Hws & Hts & Hcs). split; [done|]. split; [done|]. split; [|done].
  apply Forall_forall. intros tm Htm. simpl in Htm.
  by apply (proj1 (Forall_forall _ _) Hts), Hsub.
Qed.

Lemma never_ran_clearTimeout (t : nat) (w : world) :
  never_ran i w -> never_ran i (clearTimeout t w).
Proof.
  apply never_ran_timers. intros tm Htm. by apply list_elem_of_filter in Htm as [_ ?].
Qed.

Lemma never_ran_calls (cs : list call) (w : world) :
  Forall (fun c => call_owner c <> i) cs ->
  never_ran i w -> never_ran i (set_calls cs w).
Proof. by intros Hcs (Hx & Hws & Hts & _). Qed.

Lemma never_ran_stop (j : nat) (w : world) :
  never_ran i w -> never_ran i (Handle.stop j w).
Proof.
  intros Hw. unfold Handle.stop.
  destruct (instances w !! j) as [y|] eqn:Hy; [|done].
  destruct (controller y) as [c|]; [|done].
  destruct (FetchStatus_eqb (State.status (state y)) Loading) eqn:Hst; [|done].
  apply never_ran_upd.
  - left. intros ->. destruct Hw as ((x & Hx & _ & Hs) & _).
    rewrite Hx in Hy. injection Hy as <-. by rewrite Hs in Hst.
  - apply never_ran_calls; [|done].
    apply Forall_alter; [by destruct Hw as (_ & _ & _ & ?)|]. done.
Qed.

Lemma never_ran_stopPoll (j : nat) (w : world) :
  never_ran i w -> never_ran i (Handle.stopPoll j w).
Proof.
  intros Hw. unfold Handle.stopPoll.
  destruct (instances w !! j) as [y|]; [|done]. destruct (pollTimer y); [|done].
  apply never_ran_upd; [by right|]. by apply never_ran_clearTimeout.
Qed.

Lemma never_ran_mark (p : nat) (c : call) (o : outcome) (w : world) :
  never_ran i w -> calls w !! p = Some c ->
  never_ran i (finally_callback (call_owner c) (mark_settled p c o w)).
Proof.
  intros Hw Hc.
  assert (Hm : never_ran i (mark_settled p c o w)).
  { apply never_ran_calls; [|done]. destruct Hw as (_ & _ & _ & Hcs).
    apply Forall_insert; [done|]. simpl. by apply (Forall_lookup_1 _ _ _ _ Hcs Hc). }
  unfold finally_callback.
  destruct (instances _ !! call_owner c) as [y|]; [|done].
  by destruct (currentKey y).
Qed.

Lemma never_ran_exec (ls : list label) (w : world) :
  forallb (fun l => negb (starts i l)) ls = true ->
  never_ran i w -> never_ran i (exec ls w).
Proof.
  intros Hls.
  apply (turns_exec (never_ran i) (fun j => j <> i) (fun l => starts i l = false)).
  - intros j. simpl. by apply Nat.eqb_neq.
  - intros j. simpl. by apply Nat.eqb_neq.
  - intros j q w' (_ & Hws & _) Hin.
    by apply (proj1 (Forall_forall _ _) Hws (j, q)).
  - intros tm w' (_ & _ & Hts & _) Hin.
    by apply (proj1 (Forall_forall _ _) Hts tm).
  - intros j x w' ((y & Hy & Hl & _) & _) Hx Hlazy ->. congruence.
  - intros w' ((y & Hy & _) & _) Heq.
    apply lookup_lt_Some in Hy. lia.
  - intros j c w'. apply never_ran_runFetch.
  - intros j o w'. apply never_ran_runFetch_settled.
  - intros o w' ((y & Hy & Hl & Hs) & Hrest). split; [|done].
    exists y. unfold push. simpl. rewrite lookup_app_l; [done|]. by eapply lookup_lt_Some.
  - intros j v w'. apply never_ran_upd. by right.
  - intros j w'. apply never_ran_upd. by right.
  - intros j t w'. apply never_ran_upd. by right.
  - intros j w'. apply never_ran_stopPoll.
  - intros j w'. apply never_ran_stop.
  - intros j c w'. apply never_ran_upd. by right.
  - intros f w' (Hx & Hws & Hrest). split; [done|]. split; [|done].
    apply Forall_forall. intros r Hr. simpl in Hr.
    apply list_elem_of_In, filter_In in Hr as [Hr _].
    by apply (proj1 (Forall_forall _ _) Hws), list_elem_of_In.
  - intros t w'. apply never_ran_clearTimeout.
  - intros p c o w' Hw' Hc _. by apply never_ran_mark.
  - apply (forallb_Forall _ (fun l => starts i l = false)) in Hls; [done|].
    intros l. apply negb_true_iff.
Qed.
End NeverRan.

(** X15: an instance created with [lazy: true] issues no transport call,
    suspends no run, schedules no timer and stays Inactive through every
    sequence of turns in which neither [start()] nor [resume()] is called
    on it: not at creation, not on [poll()], and not when other instances
    run or their timers fire. *)
Theorem lazy_instance_waits (o : options) (w : world) (ls : list label) :
  opt_lazy o = true ->
  untouched (length (instances w)) w = true ->
  forallb (fun l => negb (starts (length (instances w)) l)) ls = true ->
  status_of (length (instances w)) (exec ls (createFetch (inr o) w)) = Some Inactive /\
  untouched (length (instances w)) (exec ls (createFetch (inr o) w)) = true.
Proof.
  intros Hlazy Hw Hls.
  assert (Hc : createFetch (inr o) w = push (new_instance o) w).
  { rewrite createFetch_unfold. cbv zeta.
    change (lazy (new_instance (options_of (inr o)))) with (opt_lazy o).
    rewrite Hlazy. simpl. by apply push_inactive. }
  assert (H0 : never_ran (length (instances w)) (createFetch (inr o) w)).
  { rewrite Hc. split; [|by apply untouched_iff].
    exists (new_instance o). split; [|done].
    unfold push. simpl. by rewrite lookup_app_r, Nat.sub_diag. }
  destruct (never_ran_exec _ ls _ Hls H0) as ((x & Hx & _ & Hs) & Hrest).
  split.
  - unfold status_of. by rewrite Hx, <- Hs.
  - by apply untouched_iff.
Qed.

Lemma lazy_instance_waits_witness :
  status_of (length (instances loading_a))
    (exec [Poll 1 (PollMs 10); Stop 1; Settle 0 (Fulfilled ok); Create (inl "/b");
           Fulfill 1 (inl "/c"); StopPoll 1]
       (createFetch (inr lazy_b) loading_a)) = Some Inactive /\
  untouched (length (instances loading_a))
    (exec [Poll 1 (PollMs 10); Stop 1; Settle 0 (Fulfilled ok); Create (inl "/b");
           Fulfill 1 (inl "/c"); StopPoll 1]
       (createFetch (inr lazy_b) loading_a)) = true.
Proof.
  apply (lazy_instance_waits lazy_b loading_a
           [Poll 1 (PollMs 10); Stop 1; Settle 0 (Fulfilled ok); Create (inl "/b");
            Fulfill 1 (inl "/c"); StopPoll 1]); vm_compute; reflexivity.
Defined.

(** ** The key of a settled call *)

(** X16: when a call settles while [currentKey] of the instance that made
    it is still the key of that call, the key leaves the registry, and the
    next run with that key calls the transport again. *)
Theorem settle_frees_key
    (p j : nat) (o : outcome) (w : world) (c : call) (x : instance) (c' : config) :
  calls w !! p = Some c ->
  call_outcome c = None ->
  instances w !! call_owner c = Some x ->
  currentKey x = Some (getRequestKey (call_config c)) ->
  hasUrl c' = true ->
  getRequestKey c' = getRequestKey (call_config c) ->
  pendingRequests (settle p o w) !! getRequestKey c' = None /\
  calls (runFetch j c' (settle p o w)) = calls (settle p o w) ++ [mkCall c' j false None].
Proof.
  intros Hc Ho Hx Hk Hurl Hkey.
  assert (Hnone : pendingRequests (settle p o w) !! getRequestKey c' = None).
  { rewrite (settle_removes_currentKey p o w c x _ Hc Ho Hx Hk), Hkey.
    apply lookup_delete_eq. }
  split; [done|]. by rewrite runFetch_create.
Qed.

Lemma settle_frees_key_witness :
  pendingRequests (settle 0 (Fulfilled ok) loading_a) !! getRequestKey [("url", VStr "/a")]
    = None /\
  calls (runFetch 0 [("url", VStr "/a")] (settle 0 (Fulfilled ok) loading_a))
    = calls (settle 0 (Fulfilled ok) loading_a) ++ [mkCall [("url", VStr "/a")] 0 false None].
Proof.
  apply (settle_frees_key 0 0 (Fulfilled ok) loading_a first_call loading_instance
           [("url", VStr "/a")]); vm_compute; reflexivity.
Defined.

(** ** The poll tick *)

Lemma timers_fresh_frame (w w' : world) :
  timers w' = timers w -> next_timer w' = next_timer w ->
  timers_fresh w -> timers_fresh w'.
Proof. unfold timers_fresh. by intros -> ->. Qed.

Lemma timers_runFetch (j : nat) (c : config) (w : world) :
  timers (runFetch j c w) = timers w /\ next_timer (runFetch j c w) = next_timer w.
Proof.
  unfold runFetch. destruct (hasUrl c); simpl; [|done].
  by destruct (pendingRequests w !! getRequestKey c).
Qed.

Lemma next_timer_runFetch_settled (j : nat) (o : outcome) (w : world) (x : instance) :
  instances w !! j = Some x ->
  next_timer (runFetch_settled j o w) =
  if 0 <=? pollTiming (on_outcome o x) then S (next_timer w) else next_timer w.
Proof.
  intros Hx. unfold runFetch_settled. rewrite Hx.
  by destruct (0 <=? pollTiming (on_outcome o x)), (onFinish x), o.
Qed.

Lemma timers_fresh_runFetch_settled (j : nat) (o : outcome) (w : world) :
  timers_fresh w -> timers_fresh (runFetch_settled j o w).
Proof.
  intros Hw. unfold timers_fresh.
  destruct (instances w !! j) as [x|] eqn:Hx.
  - rewrite (runFetch_settled_timers j o w x Hx), (next_timer_runFetch_settled j o w x Hx).
    destruct (0 <=? _).
    + apply Forall_app. split.
      * eapply Forall_impl; [exact Hw|]. simpl. lia.
      * apply Forall_singleton. simpl. lia.
    + by rewrite app_nil_r.
  - unfold runFetch_settled. by rewrite Hx.
Qed.

Lemma timers_fresh_clearTimeout (t : nat) (w : world) :
  timers_fresh w -> timers_fresh (clearTimeout t w).
Proof.
  intros Hw. unfold timers_fresh. simpl. apply Forall_forall.
  intros tm Htm. apply list_elem_of_filter in Htm as [_ Htm].
  by apply (proj1 (Forall_forall _ _) Hw).
Qed.

Lemma timers_fresh_exec (ls : list label) (w : world) :
  timers_fresh w -> timers_fresh (exec ls w).
Proof.
  apply (turns_exec timers_fresh (fun _ => True) (fun _ => True)); try done.
  - intros j c w' _. apply timers_fresh_frame; apply timers_runFetch.
  - intros j o w' _. apply timers_fresh_runFetch_settled.
  - intros j w' Hw'. unfold Handle.stopPoll.
    destruct (instances w' !! j) as [y|]; [|done]. destruct (pollTimer y); [|done].
    by apply timers_fresh_clearTimeout.
  - intros j w' Hw'. unfold Handle.stop.
    destruct (instances w' !! j) as [y|]; [|done]. destruct (controller y); [|done].
    by destruct (FetchStatus_eqb _ _).
  - intros t w'. apply timers_fresh_clearTimeout.
  - intros p c o w' Hw' _ _. eapply timers_fresh_frame; [| |done];
      unfold finally_callback, mark_settled; simpl;
      destruct (instances w' !! call_owner c) as [y|]; try done; by destruct (currentKey y).
  - by apply Forall_true.
Qed.

Lemma find_fresh_timer (ts : list timer) (n i : nat) (ms : Z) :
  Forall (fun tm => (timer_id tm < n)%nat) ts ->
  List.find (fun tm => Nat.eqb (timer_id tm) n) (ts ++ [mkTimer n i ms])
  = Some (mkTimer n i ms).
Proof.
  induction 1 as [|tm ts Htm Hts IH]; simpl.
  - by rewrite Nat.eqb_refl.
  - destruct (Nat.eqb_spec (timer_id tm) n); [lia | done].
Qed.

(** X17: the timer that a run schedules runs the config that is current
    when it fires: after a run of a polling instance has ended and
    [fulfill(url)] has been called, the tick removes the timer and runs
    [{url}], not the config of the run that scheduled it. *)
Theorem poll_tick_runs_current_config
    (ls : list label) (i : nat) (x : instance) (ms : Z) (o : outcome) (url : string) :
  instances (exec ls empty_world) !! i = Some x ->
  poll x = PollMs ms ->
  0 <= ms ->
  fire (next_timer (exec ls empty_world))
    (Handle.fulfill i (inl url) (runFetch_settled i o (exec ls empty_world)))
  = runFetch i [("url", VStr url)]
      (clearTimeout (next_timer (exec ls empty_world))
         (Handle.fulfill i (inl url) (runFetch_settled i o (exec ls empty_world)))).
Proof.
  intros Hx Hp Hms. set (w := exec ls empty_world) in *.
  assert (Hfresh : timers_fresh w).
  { apply timers_fresh_exec. by constructor. }
  assert (Ht : pollTiming (on_outcome o x) = ms).
  { unfold pollTiming. destruct o as [r|e]; simpl; [by rewrite Hp|].
    destruct (negb (isCancel e)); simpl; by rewrite Hp. }
  unfold fire.
  change (timers (Handle.fulfill i (inl url) (runFetch_settled i o w)))
    with (timers (runFetch_settled i o w)).
  rewrite (runFetch_settled_timers i o w x Hx), Ht.
  destruct (Z.leb_spec 0 ms); [|lia].
  rewrite (find_fresh_timer _ _ i ms Hfresh).
  change (timer_inst (mkTimer (next_timer w) i ms)) with i.
  assert (Hi : instances (clearTimeout (next_timer w)
                 (Handle.fulfill i (inl url) (runFetch_settled i o w))) !! i
               = Some (set_currentConfig [("url", VStr url)]
                         (settled_instance o (next_timer w) x))).
  { change (instances (clearTimeout ?t ?w')) with (instances w').
    apply lookup_upd_Some. by apply runFetch_settled_instance. }
  by rewrite Hi.
Qed.

Lemma poll_tick_runs_current_config_witness :
  fire (next_timer (exec [Create poll_a; Settle 0 (Fulfilled ok)] empty_world))
    (Handle.fulfill 0 (inl "/b")
       (runFetch_settled 0 (RejectedWith boom)
          (exec [Create poll_a; Settle 0 (Fulfilled ok)] empty_world)))
  = runFetch 0 [("url", VStr "/b")]
      (clearTimeout (next_timer (exec [Create poll_a; Settle 0 (Fulfilled ok)] empty_world))
         (Handle.fulfill 0 (inl "/b")
            (runFetch_settled 0 (RejectedWith boom)
               (exec [Create poll_a; Settle 0 (Fulfilled ok)] empty_world)))).
Proof.
  apply (poll_tick_runs_current_config [Create poll_a; Settle 0 (Fulfilled ok)] 0
           polling_instance 1000 (RejectedWith boom) "/b").
  - vm_compute. reflexivity.
  - reflexivity.
  - lia.
Defined.
